(** * A shallow embedding of [create_wahoo_workout.py]

    The FIT encoder of the script: the nibble-table checksum
    [calculate_crc] and the stateful [FitWriter] with its three methods
    [define_message], [write_data_message] and [finalize].

    Python integers are unbounded, so they are modelled as [Z]; the bit
    operators [&], [|], [^] and [>>] are [Z.land], [Z.lor], [Z.lxor] and
    [Z.shiftr], which agree with Python on negative numbers too.  A
    [bytes] or [bytearray] value is a [list Z] whose elements lie in
    [0..255]; every place where Python checks that range ([struct.pack],
    [bytearray.append], [bytearray.extend]) checks it here and raises.
    The dictionary [local_message_types] is a [gmap Z Z]. *)

From stdpp Require Import base numbers option list gmap fin_maps.

Local Open Scope Z_scope.

(** ** Exceptions and results *)

(** The exceptions the encoder can raise: [KeyError] from the dictionary
    lookup of [write_data_message], [struct.error] from [struct.pack] and
    [ValueError] from [bytearray.append] / [bytearray.extend]. *)
Inductive exn : Type :=
| KeyError (key : Z)
| StructError
| ValueError.

Inductive result (A : Type) : Type :=
| Ok (a : A)
| Raise (e : exn).
Arguments Ok {A} a.
Arguments Raise {A} e.

#[global] Instance result_ret : MRet result := λ A a, Ok a.

#[global] Instance result_bind : MBind result := λ A B k r,
  match r with
  | Ok a => k a
  | Raise e => Raise e
  end.

(** ** Bytes and [struct.pack] *)

Definition byte_ok (x : Z) : bool := (0 <=? x) && (x <=? 255).

Definition bytes_ok (l : list Z) : bool := forallb byte_ok l.

(** The little-endian bytes of a number that is known to fit. *)
Definition le_bytes_2 (x : Z) : list Z :=
  [Z.land x 255; Z.land (Z.shiftr x 8) 255].

Definition le_bytes_4 (x : Z) : list Z :=
  [Z.land x 255; Z.land (Z.shiftr x 8) 255;
   Z.land (Z.shiftr x 16) 255; Z.land (Z.shiftr x 24) 255].

(** [struct.pack('<B', x)]: one byte, [struct.error] out of [0..255]. *)
Definition pack_B (x : Z) : result (list Z) :=
  if byte_ok x then Ok [x] else Raise StructError.

(** [struct.pack('<H', x)]: two bytes, [struct.error] out of [0..65535]. *)
Definition pack_H (x : Z) : result (list Z) :=
  if (0 <=? x) && (x <=? 65535) then Ok (le_bytes_2 x) else Raise StructError.

(** [struct.pack('<I', x)]: four bytes, [struct.error] out of [0..2^32-1]. *)
Definition pack_I (x : Z) : result (list Z) :=
  if (0 <=? x) && (x <=? 4294967295) then Ok (le_bytes_4 x)
  else Raise StructError.

(** Reading the fields back, for statements about the produced file. *)
Definition read_u16_le (l : list Z) : Z :=
  match l with
  | [b0; b1] => b0 + 256 * b1
  | _ => -1
  end.

Definition read_u32_le (l : list Z) : Z :=
  match l with
  | [b0; b1; b2; b3] => b0 + 256 * b1 + 65536 * b2 + 16777216 * b3
  | _ => -1
  end.

(** ** FIT protocol constants *)

Definition FIT_HEADER_SIZE : Z := 14.
Definition FIT_PROTOCOL_VERSION : Z := 0x20.
Definition FIT_PROFILE_VERSION : Z := 2140.

(** [b'.FIT'] *)
Definition FIT_DATA_TYPE : list Z := [46; 70; 73; 84].

(** ** The checksum *)

Definition CRC_TABLE : list Z :=
  [0x0000; 0xCC01; 0xD801; 0x1400; 0xF001; 0x3C00; 0x2800; 0xE401;
   0xA001; 0x6C00; 0x7800; 0xB401; 0x5000; 0x9C01; 0x8801; 0x4400].

(** [CRC_TABLE[i]].  Every index in the source is of the form [x & 0xF],
    hence in [0..15] (lemma [crc_index_in_range]); the default is never
    returned. *)
Definition CRC_TABLE_get (i : Z) : Z := nth (Z.to_nat i) CRC_TABLE 0.

(** The body of the [for byte in data] loop of [calculate_crc]. *)
Definition crc_loop_body (crc byte : Z) : Z :=
  let tmp := CRC_TABLE_get (Z.land crc 0xF) in
  let crc := Z.land (Z.shiftr crc 4) 0x0FFF in
  let crc := Z.lxor (Z.lxor crc tmp) (CRC_TABLE_get (Z.land byte 0xF)) in
  let tmp := CRC_TABLE_get (Z.land crc 0xF) in
  let crc := Z.land (Z.shiftr crc 4) 0x0FFF in
  let crc := Z.lxor (Z.lxor crc tmp)
                    (CRC_TABLE_get (Z.land (Z.shiftr byte 4) 0xF)) in
  crc.

(** [calculate_crc(data, crc=0)] *)
Definition calculate_crc (data : list Z) (crc : Z) : Z :=
  fold_left crc_loop_body data crc.

(** *** The checksum as the specification words it

    One nibble step: index the table with the low four bits of the
    accumulator, shift the accumulator right by four and mask it to twelve
    bits, then XOR it with the fetched value and with the table value of
    the nibble.  Each byte contributes its low nibble, then its high
    nibble. *)
Module Spec.

Definition table : list Z :=
  [0x0000; 0xCC01; 0xD801; 0x1400; 0xF001; 0x3C00; 0x2800; 0xE401;
   0xA001; 0x6C00; 0x7800; 0xB401; 0x5000; 0x9C01; 0x8801; 0x4400].

Definition table_at (i : Z) : Z := default 0 (table !! Z.to_nat i).

Definition low4 (x : Z) : Z := Z.land x 0xF.

Definition nibble_step (acc nibble : Z) : Z :=
  let fetched := table_at (low4 acc) in
  let shifted := Z.land (Z.shiftr acc 4) 0xFFF in
  Z.lxor (Z.lxor shifted fetched) (table_at nibble).

(** low nibble first, then high nibble *)
Definition nibbles_of (byte : Z) : list Z :=
  [low4 byte; low4 (Z.shiftr byte 4)].

Definition checksum (bytes : list Z) (seed : Z) : Z :=
  foldl nibble_step seed (bytes ≫= nibbles_of).

End Spec.

Definition u16 (x : Z) : Prop := 0 ≤ x < 65536.

(** ** The writer *)

(** The three attributes set by [FitWriter.__init__]. *)
Record FitWriter : Type := mkFitWriter {
  data : list Z;
  local_message_types : gmap Z Z;
  next_local_id : Z
}.

(** [FitWriter()] *)
Definition FitWriter_init : FitWriter :=
  {| data := []; local_message_types := ∅; next_local_id := 0 |}.

(** [struct.pack('<BBHI4s', a, b, h, i, s)] with a four-byte [s]. *)
Definition pack_BBHI4s (a b h i : Z) (s : list Z) : result (list Z) :=
  pa ← pack_B a; pb ← pack_B b; ph ← pack_H h; pi ← pack_I i;
  mret (pa ++ pb ++ ph ++ pi ++ s).

(** [struct.pack('<BBBHB', a, b, c, h, d)] *)
Definition pack_BBBHB (a b c h d : Z) : result (list Z) :=
  pa ← pack_B a; pb ← pack_B b; pc ← pack_B c; ph ← pack_H h; pd ← pack_B d;
  mret (pa ++ pb ++ pc ++ ph ++ pd).

(** [struct.pack('<BBB', a, b, c)] *)
Definition pack_BBB (a b c : Z) : result (list Z) :=
  pa ← pack_B a; pb ← pack_B b; pc ← pack_B c;
  mret (pa ++ pb ++ pc).

(** [write_file_header]: the header with a zero data size.  It reads
    nothing of the writer and changes nothing. *)
Definition write_file_header (self : FitWriter) : result (list Z) * FitWriter :=
  (header ← pack_BBHI4s FIT_HEADER_SIZE FIT_PROTOCOL_VERSION
                        FIT_PROFILE_VERSION 0 FIT_DATA_TYPE;
   let header_crc := calculate_crc header 0 in
   crc_bytes ← pack_H header_crc;
   mret (header ++ crc_bytes),
   self).

(** The loop [for field_def_num, field_size, field_type in fields:
    definition += struct.pack('<BBB', ...)]. *)
Fixpoint pack_field_defs (definition : list Z) (fields : list (Z * Z * Z))
  : result (list Z) :=
  match fields with
  | [] => Ok definition
  | (field_def_num, field_size, field_type) :: rest =>
      p ← pack_BBB field_def_num field_size field_type;
      pack_field_defs (definition ++ p) rest
  end.

(** [define_message].  The counter and the dictionary are updated before
    [struct.pack] is reached, so they keep their new values when
    [struct.pack] raises; the buffer is extended only at the end. *)
Definition define_message (self : FitWriter) (global_mesg_num : Z)
    (fields : list (Z * Z * Z)) : result Z * FitWriter :=
  let local_id := next_local_id self in
  let self :=
    {| data := data self;
       local_message_types := local_message_types self;
       next_local_id := next_local_id self + 1 |} in
  let self :=
    {| data := data self;
       local_message_types :=
         <[global_mesg_num := local_id]> (local_message_types self);
       next_local_id := next_local_id self |} in
  let header := Z.lor 0x40 local_id in
  match
    definition ← pack_BBBHB header 0 0 global_mesg_num
                            (Z.of_nat (length fields));
    pack_field_defs definition fields
  with
  | Raise e => (Raise e, self)
  | Ok definition =>
      (Ok local_id,
       {| data := data self ++ definition;
          local_message_types := local_message_types self;
          next_local_id := next_local_id self |})
  end.

(** [bytearray.append(x)]: [ValueError] unless [x] is in [0..255]. *)
Definition bytearray_append (buf : list Z) (x : Z) : result (list Z) :=
  if byte_ok x then Ok (buf ++ [x]) else Raise ValueError.

(** [bytearray.extend(value)]: the whole of [value] is checked before any
    of it is appended. *)
Definition bytearray_extend (buf : list Z) (value : list Z) : result (list Z) :=
  if bytes_ok value then Ok (buf ++ value) else Raise ValueError.

(** The loop [for value in values: self.data.extend(value)] (both branches
    of the [isinstance] test do the same).  What was appended before a
    failing [extend] stays in the buffer. *)
Fixpoint extend_values (buf : list Z) (values : list (list Z))
  : result unit * list Z :=
  match values with
  | [] => (Ok tt, buf)
  | value :: rest =>
      match bytearray_extend buf value with
      | Ok buf' => extend_values buf' rest
      | Raise e => (Raise e, buf)
      end
  end.

(** [write_data_message] *)
Definition write_data_message (self : FitWriter) (global_mesg_num : Z)
    (values : list (list Z)) : result unit * FitWriter :=
  match local_message_types self !! global_mesg_num with
  | None => (Raise (KeyError global_mesg_num), self)
  | Some local_id =>
      match bytearray_append (data self) local_id with
      | Raise e => (Raise e, self)
      | Ok buf =>
          let (r, buf') := extend_values buf values in
          (r, {| data := buf';
                 local_message_types := local_message_types self;
                 next_local_id := next_local_id self |})
      end
  end.

(** [finalize]: no attribute of the writer is assigned, and the returned
    [bytearray] is a fresh object. *)
Definition finalize (self : FitWriter) : result (list Z) * FitWriter :=
  (header ← pack_BBHI4s FIT_HEADER_SIZE FIT_PROTOCOL_VERSION
                        FIT_PROFILE_VERSION (Z.of_nat (length (data self)))
                        FIT_DATA_TYPE;
   let header_crc := calculate_crc header 0 in
   crc_bytes ← pack_H header_crc;
   let header := header ++ crc_bytes in
   let data_crc := calculate_crc (data self) 0 in
   trailer ← pack_H data_crc;
   mret (header ++ data self ++ trailer),
   self).

(** ** Sessions: sequences of method calls on one writer *)

Inductive call : Type :=
| DefineMessage (global_mesg_num : Z) (fields : list (Z * Z * Z))
| WriteDataMessage (global_mesg_num : Z) (values : list (list Z))
| Finalize.

(** What a call returns: an [int], [None] or a [bytearray]. *)
Inductive value : Type :=
| VInt (n : Z)
| VNone
| VBytes (b : list Z).

Definition rmap {A B : Type} (f : A → B) (r : result A) : result B :=
  match r with
  | Ok a => Ok (f a)
  | Raise e => Raise e
  end.

Definition step (self : FitWriter) (c : call) : result value * FitWriter :=
  match c with
  | DefineMessage g fields =>
      let (r, self') := define_message self g fields in (rmap VInt r, self')
  | WriteDataMessage g values =>
      let (r, self') := write_data_message self g values in
      (rmap (λ _, VNone) r, self')
  | Finalize =>
      let (r, self') := finalize self in (rmap VBytes r, self')
  end.

(** Running a session from a given writer: the outcome of every call, in
    order, and the writer at the end.  A raised exception is caught by the
    caller, who goes on using the writer. *)
Fixpoint run (self : FitWriter) (cs : list call)
  : list (result value) * FitWriter :=
  match cs with
  | [] => ([], self)
  | c :: rest =>
      let (r, self') := step self c in
      let (rs, self'') := run self' rest in
      (r :: rs, self'')
  end.

Definition session_state (cs : list call) : FitWriter :=
  snd (run FitWriter_init cs).

(** The pairs (message type, stream id) bound by the assignment
    [self.local_message_types[global_mesg_num] = local_id], in the order
    in which a session executes it. *)
Fixpoint assignments (self : FitWriter) (cs : list call) : list (Z * Z) :=
  match cs with
  | [] => []
  | c :: rest =>
      match c with
      | DefineMessage g _ => [(g, next_local_id self)]
      | _ => []
      end ++ assignments (snd (step self c)) rest
  end.

(** ** Well-formed arguments and the record layout *)

(** A field descriptor [struct.pack('<BBB', ...)] accepts. *)
Definition field_ok (f : Z * Z * Z) : bool :=
  let '(field_def_num, field_size, field_type) := f in
  byte_ok field_def_num && byte_ok field_size && byte_ok field_type.

(** The arguments of [define_message] that both [struct.pack] calls
    accept: a 16-bit message number, at most 255 fields, byte-sized field
    components. *)
Definition define_args_ok (global_mesg_num : Z) (fields : list (Z * Z * Z))
  : bool :=
  (0 <=? global_mesg_num) && (global_mesg_num <=? 65535)
  && (Z.of_nat (length fields) <=? 255)
  && forallb field_ok fields.

(** The three bytes of each field descriptor, in declaration order. *)
Definition field_triples (fields : list (Z * Z * Z)) : list Z :=
  fields ≫= λ '(field_id, byte_width, type_tag),
              [field_id; byte_width; type_tag].

(** What follows the record header in a definition record: reserved byte,
    architecture byte, the message type as a little-endian u16, the field
    count, the field triples. *)
Definition definition_body (message_type_id : Z) (fields : list (Z * Z * Z))
  : list Z :=
  [0; 0; message_type_id `mod` 256; message_type_id `div` 256;
   Z.of_nat (length fields)] ++ field_triples fields.

(** The message types a session passes to [define_message]. *)
Definition defined_types (cs : list call) : list Z :=
  omap (λ c, match c with DefineMessage g _ => Some g | _ => None end) cs.

(** The outcomes of the [define_message] calls of a session, in order. *)
Fixpoint define_results (cs : list call) (rs : list (result value))
  : list (result value) :=
  match cs, rs with
  | DefineMessage _ _ :: cs', r :: rs' => r :: define_results cs' rs'
  | _ :: cs', _ :: rs' => define_results cs' rs'
  | _, _ => []
  end.

Definition is_define (c : call) : bool :=
  match c with DefineMessage _ _ => true | _ => false end.

Definition call_ok (c : call) : bool :=
  match c with
  | DefineMessage g fields => define_args_ok g fields
  | _ => true
  end.

(** ** The invariant of the stream-id table *)

(** No two message types share a stream id. *)
Definition stream_ids_distinct (self : FitWriter) : Prop :=
  ∀ g1 g2 id,
    local_message_types self !! g1 = Some id →
    local_message_types self !! g2 = Some id → g1 = g2.

(** Every stream id in the table was handed out by the counter. *)
Definition stream_ids_below_counter (self : FitWriter) : Prop :=
  ∀ g id, local_message_types self !! g = Some id → id < next_local_id self.

Definition table_inv (self : FitWriter) : Prop :=
  stream_ids_distinct self ∧ stream_ids_below_counter self.

(** Sixteen [define_message] calls, for the message types 0 to 15, each
    with one one-byte field. *)
Definition sixteen_definitions : list call :=
  (λ g, DefineMessage g [(0, 1, 0x00)]) <$> seqZ 0 16.

(** ** Auxiliary definitions for the further properties *)

(** The part of a nibble step that depends on the accumulator only: the
    shifted, masked accumulator XORed with the table value of its low
    nibble.  A nibble step XORs this with the table value of the nibble. *)
Definition crc_shift_part (crc : Z) : Z :=
  Z.lxor (Z.land (Z.shiftr crc 4) 0x0FFF) (CRC_TABLE_get (Z.land crc 0xF)).

(** ** Strings *)

(** A Python [str] is a sequence of code points, each in [0..0x10FFFF];
    it is modelled as the list of its code points. *)
Definition code_point_ok (cp : Z) : bool := (0 <=? cp) && (cp <=? 0x10FFFF).

Definition is_surrogate (cp : Z) : bool := (0xD800 <=? cp) && (cp <=? 0xDFFF).

(** The UTF-8 bytes of one code point; [None] stands for the
    [UnicodeEncodeError] that [str.encode('utf-8')] raises on a
    surrogate. *)
Definition utf8_encode_code_point (cp : Z) : option (list Z) :=
  if cp <? 0x80 then Some [cp]
  else if cp <? 0x800 then
    Some [Z.lor 0xC0 (Z.shiftr cp 6); Z.lor 0x80 (Z.land cp 0x3F)]
  else if cp <? 0x10000 then
    if is_surrogate cp then None
    else Some [Z.lor 0xE0 (Z.shiftr cp 12);
               Z.lor 0x80 (Z.land (Z.shiftr cp 6) 0x3F);
               Z.lor 0x80 (Z.land cp 0x3F)]
  else
    Some [Z.lor 0xF0 (Z.shiftr cp 18);
          Z.lor 0x80 (Z.land (Z.shiftr cp 12) 0x3F);
          Z.lor 0x80 (Z.land (Z.shiftr cp 6) 0x3F);
          Z.lor 0x80 (Z.land cp 0x3F)].

(** [s.encode('utf-8')] *)
Fixpoint str_encode_utf8 (s : list Z) : option (list Z) :=
  match s with
  | [] => Some []
  | cp :: rest =>
      match utf8_encode_code_point cp, str_encode_utf8 rest with
      | Some b, Some bs => Some (b ++ bs)
      | _, _ => None
      end
  end.

(** The slice [b[:stop]]: a negative [stop] counts from the end, and both
    ends are clamped to the sequence. *)
Definition slice_to (b : list Z) (stop : Z) : list Z :=
  if 0 <=? stop then take (Z.to_nat stop) b
  else take (Z.to_nat (Z.of_nat (List.length b) + stop)) b.

(** [b'\x00' * n]: empty when [n] is not positive. *)
Definition zero_bytes (n : Z) : list Z := replicate (Z.to_nat n) 0.

(** [encode_string(s, length)] *)
Definition encode_string (s : list Z) (length : Z) : option (list Z) :=
  match str_encode_utf8 s with
  | None => None
  | Some utf8 =>
      let encoded := slice_to utf8 (length - 1) in
      Some (encoded ++ zero_bytes (length - Z.of_nat (List.length encoded)))
  end.

(** Reading a fixed-width string field back: the bytes before the first
    zero byte. *)
Fixpoint until_nul (b : list Z) : list Z :=
  match b with
  | [] => []
  | x :: rest => if x =? 0 then [] else x :: until_nul rest
  end.

(** ** The script: [create_workout_fit] *)

Definition MESG_FILE_ID : Z := 0.
Definition MESG_WORKOUT : Z := 26.
Definition MESG_WORKOUT_STEP : Z := 27.

Definition FIT_ENUM : Z := 0x00.
Definition FIT_SINT8 : Z := 0x01.
Definition FIT_UINT8 : Z := 0x02.
Definition FIT_SINT16 : Z := 0x83.
Definition FIT_UINT16 : Z := 0x84.
Definition FIT_SINT32 : Z := 0x85.
Definition FIT_UINT32 : Z := 0x86.
Definition FIT_STRING : Z := 0x07.
Definition FIT_FLOAT32 : Z := 0x88.
Definition FIT_FLOAT64 : Z := 0x89.
Definition FIT_UINT8Z : Z := 0x0A.
Definition FIT_UINT16Z : Z := 0x8B.
Definition FIT_UINT32Z : Z := 0x8C.
Definition FIT_BYTE : Z := 0x0D.

(** What can end [create_workout_fit] early: an exception of the writer
    or of [struct.pack], or the [UnicodeEncodeError] of [encode_string]. *)
Inductive script_exn : Type :=
| WriterError (e : exn)
| UnicodeEncodeError.

(** Code that uses the local [writer] and stops at the first exception:
    the exception leaves the function, and the writer with it. *)
Definition script (A : Type) : Type := FitWriter → script_exn + A * FitWriter.

#[global] Instance script_ret : MRet script := λ A a w, inr (a, w).

#[global] Instance script_bind : MBind script := λ A B k m w,
  match m w with
  | inl e => inl e
  | inr (a, w') => k a w'
  end.

(** A method call on the writer. *)
Definition method {A : Type} (m : FitWriter → result A * FitWriter) : script A :=
  λ w, match m w with
       | (Ok a, w') => inr (a, w')
       | (Raise e, _) => inl (WriterError e)
       end.

(** A [struct.pack] call. *)
Definition packed (r : result (list Z)) : script (list Z) :=
  λ w, match r with
       | Ok b => inr (b, w)
       | Raise e => inl (WriterError e)
       end.

(** An [encode_string] call. *)
Definition encoded (o : option (list Z)) : script (list Z) :=
  λ w, match o with
       | Some b => inr (b, w)
       | None => inl UnicodeEncodeError
       end.

Definition file_id_fields : list (Z * Z * Z) :=
  [(0, 1, FIT_ENUM); (1, 2, FIT_UINT16); (2, 2, FIT_UINT16);
   (3, 4, FIT_UINT32Z); (4, 4, FIT_UINT32)].

Definition workout_fields : list (Z * Z * Z) :=
  [(4, 1, FIT_ENUM); (5, 4, FIT_UINT32Z); (6, 2, FIT_UINT16);
   (8, 24, FIT_STRING)].

Definition workout_step_fields : list (Z * Z * Z) :=
  [(254, 2, FIT_UINT16); (0, 16, FIT_STRING); (1, 1, FIT_ENUM);
   (2, 4, FIT_UINT32); (3, 1, FIT_ENUM); (4, 4, FIT_UINT32);
   (5, 4, FIT_UINT32); (6, 4, FIT_UINT32); (7, 1, FIT_ENUM)].

(** The string ["150W Steady"]. *)
Definition step_name_str : list Z :=
  [49; 53; 48; 87; 32; 83; 116; 101; 97; 100; 121].

(** [create_workout_fit(filename, workout_name, duration_seconds,
    target_power_watts)] up to the point where the file is opened: the
    result is [fit_data], the bytes the function then writes to
    [filename].  [timestamp] is the value [fit_timestamp()] returns, which
    depends on the clock. *)
Definition create_workout_fit (workout_name : list Z)
    (duration_seconds target_power_watts timestamp : Z)
  : script_exn + list Z :=
  let body : script (list Z) :=
    _ ← method (λ writer, define_message writer MESG_FILE_ID file_id_fields);
    v1 ← packed (pack_B 5);
    v2 ← packed (pack_H 1);
    v3 ← packed (pack_H 1);
    v4 ← packed (pack_I 12345);
    v5 ← packed (pack_I timestamp);
    _ ← method (λ writer,
           write_data_message writer MESG_FILE_ID [v1; v2; v3; v4; v5]);
    workout_name_bytes ← encoded (encode_string workout_name 24);
    _ ← method (λ writer, define_message writer MESG_WORKOUT workout_fields);
    v1 ← packed (pack_B 2);
    v2 ← packed (pack_I 32);
    v3 ← packed (pack_H 1);
    _ ← method (λ writer,
           write_data_message writer MESG_WORKOUT
             [v1; v2; v3; workout_name_bytes]);
    step_name ← encoded (encode_string step_name_str 16);
    _ ← method (λ writer,
           define_message writer MESG_WORKOUT_STEP workout_step_fields);
    v1 ← packed (pack_H 0);
    v3 ← packed (pack_B 0);
    v4 ← packed (pack_I (duration_seconds * 1000));
    v5 ← packed (pack_B 3);
    v6 ← packed (pack_I 0);
    v7 ← packed (pack_I target_power_watts);
    v8 ← packed (pack_I target_power_watts);
    v9 ← packed (pack_B 0);
    _ ← method (λ writer,
           write_data_message writer MESG_WORKOUT_STEP
             [v1; step_name; v3; v4; v5; v6; v7; v8; v9]);
    method finalize in
  match body FitWriter_init with
  | inl e => inl e
  | inr (fit_data, _) => inr fit_data
  end.

Definition u32_ok (x : Z) : bool := (0 <=? x) && (x <=? 4294967295).

(** A whole definition record and a whole data record. *)
Definition definition_record (stream_id message_type_id : Z)
    (fields : list (Z * Z * Z)) : list Z :=
  Z.lor 0x40 stream_id :: definition_body message_type_id fields.

Definition data_record (stream_id : Z) (values : list (list Z)) : list Z :=
  stream_id :: concat values.

(** The number of data bytes a definition announces. *)
Definition declared_width (fields : list (Z * Z * Z)) : Z :=
  foldr (λ '(_, byte_width, _) acc, byte_width + acc) 0 fields.

(** The six records [create_workout_fit] emits, for the encoded workout
    name [name_field]: each definition record followed by its data
    record. *)
Definition workout_payload (name_field : list Z)
    (duration_seconds target_power_watts timestamp : Z) : list Z :=
  definition_record 0 MESG_FILE_ID file_id_fields
  ++ data_record 0 [[5]; le_bytes_2 1; le_bytes_2 1; le_bytes_4 12345;
                    le_bytes_4 timestamp]
  ++ definition_record 1 MESG_WORKOUT workout_fields
  ++ data_record 1 [[2]; le_bytes_4 32; le_bytes_2 1; name_field]
  ++ definition_record 2 MESG_WORKOUT_STEP workout_step_fields
  ++ data_record 2 [le_bytes_2 0;
                    step_name_str ++ [0; 0; 0; 0; 0];
                    [0]; le_bytes_4 (duration_seconds * 1000); [3];
                    le_bytes_4 0; le_bytes_4 target_power_watts;
                    le_bytes_4 target_power_watts; [0]].

(** ** Reading a payload back

    A reader for the records the writer emits, to state what a payload
    means: a record header with bit 6 set starts a definition record
    (reserved byte, architecture byte, message type as little-endian u16,
    field count, then one triple per field) for the stream in its low
    four bits; any other header starts a data record of the stream in its
    low four bits, whose values have the widths of the latest definition
    of that stream. *)

Inductive fit_record : Type :=
| DefinitionRecord (stream_id message_type_id : Z) (fields : list (Z * Z * Z))
| DataRecord (stream_id : Z) (values : list (list Z)).

Fixpoint read_field_defs (n : nat) (b : list Z)
  : option (list (Z * Z * Z) * list Z) :=
  match n with
  | O => Some ([], b)
  | S n' =>
      match b with
      | field_id :: byte_width :: type_tag :: rest =>
          match read_field_defs n' rest with
          | Some (fields, rest') =>
              Some ((field_id, byte_width, type_tag) :: fields, rest')
          | None => None
          end
      | _ => None
      end
  end.

Fixpoint read_values (fields : list (Z * Z * Z)) (b : list Z)
  : option (list (list Z) * list Z) :=
  match fields with
  | [] => Some ([], b)
  | (_, byte_width, _) :: fields' =>
      if Z.of_nat (List.length b) <? byte_width then None
      else
        match read_values fields' (drop (Z.to_nat byte_width) b) with
        | Some (values, rest) =>
            Some (take (Z.to_nat byte_width) b :: values, rest)
        | None => None
        end
  end.

Fixpoint read_records (fuel : nat) (defs : gmap Z (list (Z * Z * Z)))
    (b : list Z) : option (list fit_record) :=
  match fuel with
  | O => None
  | S fuel' =>
      match b with
      | [] => Some []
      | header :: rest =>
          let stream_id := Z.land header 0xF in
          if Z.testbit header 6 then
            match rest with
            | _ :: _ :: lo :: hi :: n :: rest' =>
                match read_field_defs (Z.to_nat n) rest' with
                | Some (fields, rest'') =>
                    match read_records fuel' (<[stream_id := fields]> defs)
                            rest'' with
                    | Some records =>
                        Some (DefinitionRecord stream_id (lo + 256 * hi) fields
                              :: records)
                    | None => None
                    end
                | None => None
                end
            | _ => None
            end
          else
            match defs !! stream_id with
            | Some fields =>
                match read_values fields rest with
                | Some (values, rest') =>
                    match read_records fuel' defs rest' with
                    | Some records => Some (DataRecord stream_id values :: records)
                    | None => None
                    end
                | None => None
                end
            | None => None
            end
      end
  end.

(** Every record takes at least one byte, so this fuel is enough. *)
Definition read_payload (b : list Z) : option (list fit_record) :=
  read_records (S (List.length b)) ∅ b.

(** The values of a data message have the widths its definition
    declares, one value per field. *)
Fixpoint widths_match (fields : list (Z * Z * Z)) (values : list (list Z))
  : bool :=
  match fields, values with
  | [], [] => true
  | (_, byte_width, _) :: fields', value :: values' =>
      (Z.of_nat (List.length value) =? byte_width)
      && widths_match fields' values'
  | _, _ => false
  end.

(** The records a session is meant to emit, when every call is one a
    reader can make sense of: definitions with arguments [struct.pack]
    accepts and a stream id of at most 15, data messages of byte values
    that match the latest definition of their message type.  [schemas]
    holds that definition for each message type. *)
Fixpoint records_of (self : FitWriter) (schemas : gmap Z (list (Z * Z * Z)))
    (cs : list call) : option (list fit_record) :=
  match cs with
  | [] => Some []
  | c :: rest =>
      match c with
      | DefineMessage g fields =>
          if define_args_ok g fields
             && (0 <=? next_local_id self) && (next_local_id self <=? 15)
          then
            match records_of (snd (step self c)) (<[g := fields]> schemas)
                    rest with
            | Some records =>
                Some (DefinitionRecord (next_local_id self) g fields :: records)
            | None => None
            end
          else None
      | WriteDataMessage g values =>
          match local_message_types self !! g, schemas !! g with
          | Some stream_id, Some fields =>
              if forallb bytes_ok values && widths_match fields values
              then
                match records_of (snd (step self c)) schemas rest with
                | Some records => Some (DataRecord stream_id values :: records)
                | None => None
                end
              else None
          | _, _ => None
          end
      | Finalize => records_of self schemas rest
      end
  end.

(** What links the writer to the reader in the middle of a session: every
    entry of the table has a stream id in [0..15] below the counter, and
    the reader knows for that stream the fields last declared for the
    message type. *)
Definition reader_agrees (self : FitWriter)
    (schemas defs : gmap Z (list (Z * Z * Z))) : Prop :=
  ∀ g id, local_message_types self !! g = Some id →
          0 ≤ id ≤ 15 ∧ id < next_local_id self
          ∧ ∃ fields, schemas !! g = Some fields ∧ defs !! id = Some fields.




(** * Properties *)

(** ** Bit-level facts *)

Lemma low4_in_range (x : Z) : 0 ≤ Z.land x 0xF < 16.
Proof.
  change 0xF with (Z.ones 4). rewrite Z.land_ones by lia.
  change (2 ^ 4) with 16. apply Z.mod_pos_bound. lia.
Qed.

Lemma mask12_in_range (x : Z) : 0 ≤ Z.land x 0x0FFF < 4096.
Proof.
  change 0x0FFF with (Z.ones 12). rewrite Z.land_ones by lia.
  change (2 ^ 12) with 4096. apply Z.mod_pos_bound. lia.
Qed.

Lemma mask8_in_range (x : Z) : 0 ≤ Z.land x 255 < 256.
Proof.
  change 255 with (Z.ones 8). rewrite Z.land_ones by lia.
  change (2 ^ 8) with 256. apply Z.mod_pos_bound. lia.
Qed.

Lemma u16_testbit (x : Z) :
  u16 x ↔ 0 ≤ x ∧ ∀ n, 16 ≤ n → Z.testbit x n = false.
Proof.
  unfold u16. split.
  - intros [Hlo Hhi]. split; [done|]. intros n Hn.
    rewrite <- (Z.mod_small x (2 ^ 16)) by (change (2 ^ 16) with 65536; lia).
    apply Z.mod_pow2_bits_high. lia.
  - intros [Hlo Hbits]. split; [done|].
    assert (x = x `mod` 2 ^ 16) as ->.
    { apply Z.bits_inj'. intros n Hn.
      destruct (decide (n < 16)) as [Hlt|Hge].
      - by rewrite Z.mod_pow2_bits_low.
      - rewrite Z.mod_pow2_bits_high by lia. apply Hbits. lia. }
    change (2 ^ 16) with 65536. apply Z.mod_pos_bound. lia.
Qed.

Lemma lxor_u16 (a b : Z) : u16 a → u16 b → u16 (Z.lxor a b).
Proof.
  rewrite !u16_testbit. intros [Ha Hab] [Hb Hbb]. split.
  - by apply Z.lxor_nonneg.
  - intros n Hn. by rewrite Z.lxor_spec, Hab, Hbb.
Qed.

(** ** The table *)

(** Every index the source computes is [x & 0xF], so [CRC_TABLE[...]]
    never raises [IndexError] and never counts from the end. *)
Lemma crc_index_in_range (x : Z) :
  CRC_TABLE !! Z.to_nat (Z.land x 0xF) = Some (CRC_TABLE_get (Z.land x 0xF)).
Proof.
  pose proof (low4_in_range x) as H.
  unfold CRC_TABLE_get. rewrite nth_lookup.
  destruct (CRC_TABLE !! Z.to_nat (Z.land x 15)) as [v|] eqn:E; [done|].
  apply lookup_ge_None in E. simpl in E. lia.
Qed.

Lemma CRC_TABLE_get_u16 (i : Z) : u16 (CRC_TABLE_get i).
Proof.
  unfold CRC_TABLE_get, u16.
  generalize (Z.to_nat i). intros n.
  do 16 (destruct n as [|n]; [simpl; lia|]).
  destruct n; simpl; lia.
Qed.

Lemma CRC_TABLE_get_spec (i : Z) : CRC_TABLE_get i = Spec.table_at i.
Proof. unfold CRC_TABLE_get, Spec.table_at. by rewrite nth_lookup. Qed.

(** ** The checksum *)

Lemma nibble_step_u16 (acc t : Z) :
  u16 t →
  u16 (Z.lxor (Z.lxor (Z.land (Z.shiftr acc 4) 0x0FFF)
                      (CRC_TABLE_get (Z.land acc 0xF))) t).
Proof.
  intros Ht. apply lxor_u16; [apply lxor_u16|done].
  - pose proof (mask12_in_range (Z.shiftr acc 4)). unfold u16. lia.
  - apply CRC_TABLE_get_u16.
Qed.

Lemma crc_loop_body_u16 (crc byte : Z) : u16 (crc_loop_body crc byte).
Proof. unfold crc_loop_body. cbv zeta. apply nibble_step_u16, CRC_TABLE_get_u16. Qed.

Lemma crc_loop_body_spec (crc byte : Z) :
  crc_loop_body crc byte =
  Spec.nibble_step (Spec.nibble_step crc (Spec.low4 byte))
                   (Spec.low4 (Z.shiftr byte 4)).
Proof.
  unfold crc_loop_body, Spec.nibble_step, Spec.low4. cbv zeta.
  by rewrite !CRC_TABLE_get_spec.
Qed.

Lemma calculate_crc_nil (crc : Z) : calculate_crc [] crc = crc.
Proof. reflexivity. Qed.

Lemma calculate_crc_cons (byte : Z) (data : list Z) (crc : Z) :
  calculate_crc (byte :: data) crc = calculate_crc data (crc_loop_body crc byte).
Proof. reflexivity. Qed.

Lemma calculate_crc_app (d1 d2 : list Z) (crc : Z) :
  calculate_crc (d1 ++ d2) crc = calculate_crc d2 (calculate_crc d1 crc).
Proof.
  revert crc. induction d1 as [|b d1 IH]; intros crc; [done|].
  rewrite <- app_comm_cons, !calculate_crc_cons. apply IH.
Qed.

Lemma calculate_crc_spec (data : list Z) (crc : Z) :
  calculate_crc data crc = Spec.checksum data crc.
Proof.
  unfold Spec.checksum. revert crc.
  induction data as [|b data IH]; intros crc; [done|].
  rewrite calculate_crc_cons, IH, crc_loop_body_spec. reflexivity.
Qed.

Lemma calculate_crc_u16 (data : list Z) (crc : Z) :
  data ≠ [] ∨ u16 crc → u16 (calculate_crc data crc).
Proof.
  revert crc. induction data as [|b data IH]; intros crc H.
  - destruct H as [H|H]; [done|]. by rewrite calculate_crc_nil.
  - rewrite calculate_crc_cons. apply IH. right. apply crc_loop_body_u16.
Qed.

(** C1. [calculate_crc] is the nibble-lookup procedure of the
    specification: over every list of bytes and every seed it returns what
    folding the nibble step over the low and then the high nibble of each
    byte returns, with the sixteen table values as listed; no table index
    leaves the table, so it returns on every input, the empty one
    included; and the returned value is a 16-bit number whenever the seed
    is one or at least one byte is read. *)
Theorem calculate_crc_nibble_lookup (B : list Z) (seed : Z) :
  calculate_crc B seed = Spec.checksum B seed
  ∧ CRC_TABLE =
      [0x0000; 0xCC01; 0xD801; 0x1400; 0xF001; 0x3C00; 0x2800; 0xE401;
       0xA001; 0x6C00; 0x7800; 0xB401; 0x5000; 0x9C01; 0x8801; 0x4400]
  ∧ (∀ x, CRC_TABLE !! Z.to_nat (Z.land x 0xF)
          = Some (CRC_TABLE_get (Z.land x 0xF)))
  ∧ (B ≠ [] ∨ u16 seed → u16 (calculate_crc B seed)).
Proof.
  split; [apply calculate_crc_spec|].
  split; [reflexivity|]. split; [apply crc_index_in_range|].
  apply calculate_crc_u16.
Qed.

Lemma calculate_crc_nibble_lookup_witness :
  calculate_crc [0x0E; 0x20; 0x5C] 0x1234
    = Spec.checksum [0x0E; 0x20; 0x5C] 0x1234
  ∧ u16 (calculate_crc [0x0E; 0x20; 0x5C] 0x1234)
  ∧ u16 (calculate_crc [] 0xFFFF).
Proof.
  destruct (calculate_crc_nibble_lookup [0x0E; 0x20; 0x5C] 0x1234)
    as (H1 & _ & _ & H2).
  destruct (calculate_crc_nibble_lookup [] 0xFFFF) as (_ & _ & _ & H3).
  split; [exact H1|]. split.
  - apply H2. left. discriminate.
  - apply H3. right. unfold u16. lia.
Defined.

(** C6. Feeding [B2] with the checksum of [B1] as the seed gives the
    checksum of [B1 ++ B2] computed in one call from seed 0. *)
Theorem calculate_crc_streaming (B1 B2 : list Z) :
  calculate_crc B2 (calculate_crc B1 0) = calculate_crc (B1 ++ B2) 0.
Proof. symmetry. apply calculate_crc_app. Qed.

(** C10. The checksum of the empty byte sequence is its seed, for every
    16-bit seed (and every other integer); with seed 0 it is [0x0000]. *)
Theorem calculate_crc_empty_is_seed :
  (∀ s : Z, calculate_crc [] s = s) ∧ calculate_crc [] 0 = 0x0000.
Proof. split; [apply calculate_crc_nil|reflexivity]. Qed.

(** ** [struct.pack] *)

Lemma read_u16_le_bytes (x : Z) : u16 x → read_u16_le (le_bytes_2 x) = x.
Proof.
  unfold u16, read_u16_le, le_bytes_2. intros H.
  change 255 with (Z.ones 8). rewrite !Z.land_ones, !Z.shiftr_div_pow2 by lia.
  change (2 ^ 8) with 256. Z.div_mod_to_equations. lia.
Qed.

Lemma read_u32_le_bytes (x : Z) :
  0 ≤ x ≤ 4294967295 → read_u32_le (le_bytes_4 x) = x.
Proof.
  unfold read_u32_le, le_bytes_4. intros H.
  change 255 with (Z.ones 8). rewrite !Z.land_ones, !Z.shiftr_div_pow2 by lia.
  change (2 ^ 8) with 256. change (2 ^ 16) with 65536.
  change (2 ^ 24) with 16777216. Z.div_mod_to_equations. lia.
Qed.

Lemma le_bytes_2_div_mod (x : Z) : le_bytes_2 x = [x `mod` 256; (x `div` 256) `mod` 256].
Proof.
  unfold le_bytes_2. change 255 with (Z.ones 8).
  by rewrite !Z.land_ones, !Z.shiftr_div_pow2 by lia.
Qed.

Lemma pack_B_ok (x : Z) : byte_ok x = true → pack_B x = Ok [x].
Proof. unfold pack_B. by intros ->. Qed.

Lemma pack_H_ok (x : Z) : u16 x → pack_H x = Ok (le_bytes_2 x).
Proof.
  unfold u16, pack_H. intros H.
  by rewrite (proj2 (Z.leb_le 0 x)), (proj2 (Z.leb_le x 65535)) by lia.
Qed.

Lemma pack_I_ok (x : Z) : 0 ≤ x ≤ 4294967295 → pack_I x = Ok (le_bytes_4 x).
Proof.
  unfold pack_I. intros H.
  by rewrite (proj2 (Z.leb_le 0 x)), (proj2 (Z.leb_le x 4294967295)) by lia.
Qed.

Lemma byte_ok_spec (x : Z) : byte_ok x = true ↔ 0 ≤ x ≤ 255.
Proof. unfold byte_ok. rewrite andb_true_iff, !Z.leb_le. done. Qed.

(** The header byte of a definition record fits in a byte exactly while
    the stream id does. *)
Lemma definition_header_byte_ok (local_id : Z) :
  0 ≤ local_id ≤ 255 → byte_ok (Z.lor 0x40 local_id) = true.
Proof.
  intros H. apply byte_ok_spec.
  assert (u8 : ∀ y, 0 ≤ y ≤ 255 ↔ 0 ≤ y ∧ ∀ n, 8 ≤ n → Z.testbit y n = false).
  { intros y. split.
    - intros Hy. split; [lia|]. intros n Hn.
      rewrite <- (Z.mod_small y (2 ^ 8)) by (change (2 ^ 8) with 256; lia).
      apply Z.mod_pow2_bits_high. lia.
    - intros [Hlo Hbits].
      assert (y = y `mod` 2 ^ 8) as ->.
      { apply Z.bits_inj'. intros n Hn.
        destruct (decide (n < 8)) as [Hlt|Hge].
        - by rewrite Z.mod_pow2_bits_low.
        - rewrite Z.mod_pow2_bits_high by lia. apply Hbits. lia. }
      change (2 ^ 8) with 256.
      pose proof (Z.mod_pos_bound y 256). lia. }
  apply u8. apply u8 in H as [Hlo Hbits]. split.
  - apply Z.lor_nonneg. lia.
  - intros n Hn. rewrite Z.lor_spec, Hbits by done.
    assert (0 ≤ 0x40 ≤ 255) as H64 by lia.
    apply u8 in H64 as [_ H64]. by rewrite H64.
Qed.

(** ** [define_message] *)

Lemma pack_BBB_ok (a b c : Z) :
  field_ok (a, b, c) = true → pack_BBB a b c = Ok [a; b; c].
Proof.
  unfold field_ok. rewrite !andb_true_iff. intros [[Ha Hb] Hc].
  unfold pack_BBB. by rewrite !pack_B_ok.
Qed.

Lemma pack_field_defs_ok (fields : list (Z * Z * Z)) (definition : list Z) :
  forallb field_ok fields = true →
  pack_field_defs definition fields = Ok (definition ++ field_triples fields).
Proof.
  revert definition. induction fields as [|[[a b] c] fields IH];
    intros definition Hok.
  - simpl. by rewrite app_nil_r.
  - simpl in Hok. apply andb_true_iff in Hok as [Hf Hrest].
    cbn [pack_field_defs]. rewrite pack_BBB_ok by done.
    cbn [mbind result_bind]. rewrite IH by done.
    by rewrite <- app_assoc.
Qed.

Lemma pack_BBBHB_ok (a b c h d : Z) :
  byte_ok a = true → byte_ok b = true → byte_ok c = true → u16 h →
  byte_ok d = true →
  pack_BBBHB a b c h d = Ok ([a; b; c] ++ le_bytes_2 h ++ [d]).
Proof.
  intros Ha Hb Hc Hh Hd. unfold pack_BBBHB.
  by rewrite !pack_B_ok, pack_H_ok.
Qed.

Lemma define_args_ok_spec (g : Z) (fields : list (Z * Z * Z)) :
  define_args_ok g fields = true ↔
  u16 g ∧ Z.of_nat (length fields) ≤ 255 ∧ forallb field_ok fields = true.
Proof.
  unfold define_args_ok, u16. rewrite !andb_true_iff, !Z.leb_le. intuition lia.
Qed.

(** The counter and the table change the same way whether or not
    [struct.pack] raises. *)
Lemma define_message_next_local_id self g fields :
  next_local_id (snd (define_message self g fields)) = next_local_id self + 1.
Proof. unfold define_message. by destruct (_ ≫= _). Qed.

Lemma define_message_table self g fields :
  local_message_types (snd (define_message self g fields))
  = <[g := next_local_id self]> (local_message_types self).
Proof. unfold define_message. by destruct (_ ≫= _). Qed.

(** A call with well-formed arguments on a writer whose counter still fits
    in a byte returns the counter and appends the definition record. *)
Lemma define_message_ok self g fields :
  0 ≤ next_local_id self ≤ 255 →
  define_args_ok g fields = true →
  define_message self g fields =
    (Ok (next_local_id self),
     {| data := data self
                ++ Z.lor 0x40 (next_local_id self) :: definition_body g fields;
        local_message_types :=
          <[g := next_local_id self]> (local_message_types self);
        next_local_id := next_local_id self + 1 |}).
Proof.
  intros Hid (Hg & Hlen & Hfields)%define_args_ok_spec.
  unfold define_message.
  rewrite pack_BBBHB_ok;
    [|by apply definition_header_byte_ok|done|done|done|apply byte_ok_spec; lia].
  cbn [mbind result_bind]. rewrite pack_field_defs_ok by done.
  cbn [data local_message_types next_local_id].
  do 2 f_equal. f_equal. unfold definition_body.
  rewrite le_bytes_2_div_mod.
  assert ((g `div` 256) `mod` 256 = g `div` 256) as ->.
  { unfold u16 in Hg. apply Z.mod_small. Z.div_mod_to_equations. lia. }
  reflexivity.
Qed.

(** C7. A [define_message] call with arguments [struct.pack] accepts, on
    a writer whose counter fits the header byte, appends after the record
    header exactly: a reserved 0, an architecture 0, the message type as a
    little-endian u16, the field count, and the (id, width, type) triple
    of every field in declaration order; it returns the stream id it
    assigned, which is the value the table now holds for the message
    type, and nothing else of the table changes. *)
Theorem define_message_record self g fields :
  0 ≤ next_local_id self ≤ 255 →
  define_args_ok g fields = true →
  ∃ header self',
    define_message self g fields = (Ok (next_local_id self), self')
    ∧ data self' =
        data self ++ [header]
        ++ [0; 0; g `mod` 256; g `div` 256; Z.of_nat (length fields)]
        ++ field_triples fields
    ∧ local_message_types self' !! g = Some (next_local_id self)
    ∧ (∀ g', g' ≠ g →
         local_message_types self' !! g' = local_message_types self !! g')
    ∧ next_local_id self' = next_local_id self + 1.
Proof.
  intros Hid Hargs. eexists _, _. split; [by apply define_message_ok|].
  cbn [data local_message_types next_local_id]. split; [done|].
  split; [apply lookup_insert_eq|]. split; [|done].
  intros g' Hne. by apply lookup_insert_ne.
Qed.

Lemma define_message_record_witness :
  ∃ header self',
    define_message FitWriter_init 0 [(0, 1, 0x00); (1, 2, 0x84)] = (Ok 0, self')
    ∧ data self' = [header] ++ [0; 0; 0; 0; 2] ++ [0; 1; 0x00; 1; 2; 0x84]
    ∧ local_message_types self' !! 0 = Some 0.
Proof.
  destruct (define_message_record FitWriter_init 0 [(0, 1, 0x00); (1, 2, 0x84)])
    as (header & self' & H1 & H2 & H3 & _).
  - simpl. lia.
  - reflexivity.
  - exists header, self'. split; [exact H1|]. split; [exact H2|exact H3].
Defined.

(** When [struct.pack] raises, the table and the counter have already
    been updated and the buffer has not. *)
Example define_message_raise_keeps_updates :
  define_message FitWriter_init 70000 [(0, 1, 0x00)]
  = (Raise StructError,
     {| data := []; local_message_types := {[70000 := 0]};
        next_local_id := 1 |}).
Proof. reflexivity. Qed.

(** The header byte no longer fits once 256 stream ids are handed out. *)
Lemma define_message_counter_exhausted self g fields :
  256 ≤ next_local_id self →
  fst (define_message self g fields) = Raise StructError.
Proof.
  intros Hid.
  assert (byte_ok (Z.lor 0x40 (next_local_id self)) = false) as Hbyte;
    [|unfold define_message, pack_BBBHB, pack_B; cbn [next_local_id];
      by rewrite Hbyte].
  apply not_true_is_false. rewrite byte_ok_spec. intros [Hlo Hhi].
  assert (Z.lor 0x40 (next_local_id self) `mod` 2 ^ 8
          = Z.lor 0x40 (next_local_id self)) as Hmod
    by (apply Z.mod_small; change (2 ^ 8) with 256; lia).
  assert (next_local_id self `mod` 2 ^ 8 = next_local_id self) as Hsmall.
  { apply Z.bits_inj'. intros n Hn.
    destruct (decide (n < 8)) as [Hlt|Hge].
    - by rewrite Z.mod_pow2_bits_low.
    - rewrite Z.mod_pow2_bits_high by lia.
      apply (f_equal (λ x, Z.testbit x n)) in Hmod.
      rewrite Z.mod_pow2_bits_high, Z.lor_spec in Hmod by lia.
      symmetry in Hmod. by apply orb_false_iff in Hmod as [_ ->]. }
  pose proof (Z.mod_pos_bound (next_local_id self) (2 ^ 8)) as Hb.
  change (2 ^ 8) with 256 in *. lia.
Qed.

(** ** [write_data_message] *)

Lemma extend_values_prefix (values : list (list Z)) (buf : list Z) :
  ∃ rest, snd (extend_values buf values) = buf ++ rest.
Proof.
  revert buf. induction values as [|v values IH]; intros buf.
  - exists []. simpl. by rewrite app_nil_r.
  - cbn [extend_values]. unfold bytearray_extend. destruct (bytes_ok v).
    + destruct (IH (buf ++ v)) as [rest Hrest]. exists (v ++ rest).
      by rewrite Hrest, <- app_assoc.
    + exists []. simpl. by rewrite app_nil_r.
Qed.

Lemma extend_values_ok (values : list (list Z)) (buf : list Z) :
  forallb bytes_ok values = true →
  extend_values buf values = (Ok (), buf ++ concat values).
Proof.
  revert buf. induction values as [|v values IH]; intros buf Hok.
  - simpl. by rewrite app_nil_r.
  - simpl in Hok. apply andb_true_iff in Hok as [Hv Hrest].
    cbn [extend_values]. unfold bytearray_extend. rewrite Hv, IH by done.
    by rewrite <- app_assoc.
Qed.

Lemma undefined_key_raises self g values :
  local_message_types self !! g = None →
  write_data_message self g values = (Raise (KeyError g), self).
Proof. unfold write_data_message. by intros ->. Qed.

Lemma write_data_message_table self g values :
  local_message_types (snd (write_data_message self g values))
  = local_message_types self.
Proof.
  unfold write_data_message.
  destruct (local_message_types self !! g) as [id|]; [|done].
  destruct (bytearray_append (data self) id); [|done].
  by destruct (extend_values a values).
Qed.

Lemma write_data_message_next_local_id self g values :
  next_local_id (snd (write_data_message self g values)) = next_local_id self.
Proof.
  unfold write_data_message.
  destruct (local_message_types self !! g) as [id|]; [|done].
  destruct (bytearray_append (data self) id); [|done].
  by destruct (extend_values a values).
Qed.

(** Once the stream id is found and is a byte, the record header is in
    the buffer, whatever happens to the values after it. *)
Lemma write_data_message_header self g values id :
  local_message_types self !! g = Some id → 0 ≤ id ≤ 255 →
  ∃ rest, data (snd (write_data_message self g values))
          = data self ++ id :: rest.
Proof.
  intros Hg Hid. unfold write_data_message, bytearray_append. rewrite Hg.
  rewrite (proj2 (byte_ok_spec id)) by done.
  destruct (extend_values_prefix values (data self ++ [id])) as [rest Hrest].
  destruct (extend_values _ values) as [r buf']. simpl in *. subst buf'.
  exists rest. by rewrite <- app_assoc.
Qed.

Lemma write_data_message_ok self g values id :
  local_message_types self !! g = Some id → 0 ≤ id ≤ 255 →
  forallb bytes_ok values = true →
  write_data_message self g values =
    (Ok (),
     {| data := data self ++ id :: concat values;
        local_message_types := local_message_types self;
        next_local_id := next_local_id self |}).
Proof.
  intros Hg Hid Hvalues. unfold write_data_message, bytearray_append.
  rewrite Hg, (proj2 (byte_ok_spec id)), extend_values_ok by done.
  by rewrite <- app_assoc.
Qed.

(** ** Record headers *)

Ltac stream_id_cases id H :=
  assert (id = 0 ∨ id = 1 ∨ id = 2 ∨ id = 3 ∨ id = 4 ∨ id = 5 ∨ id = 6
          ∨ id = 7 ∨ id = 8 ∨ id = 9 ∨ id = 10 ∨ id = 11 ∨ id = 12
          ∨ id = 13 ∨ id = 14 ∨ id = 15) as H by lia;
  repeat (destruct H as [H|H]; [rewrite H|]); [..|rewrite H].

Lemma definition_header_bits (id : Z) :
  0 ≤ id ≤ 15 →
  Z.testbit (Z.lor 0x40 id) 7 = false ∧ Z.testbit (Z.lor 0x40 id) 6 = true
  ∧ Z.testbit (Z.lor 0x40 id) 5 = false ∧ Z.testbit (Z.lor 0x40 id) 4 = false
  ∧ Z.land (Z.lor 0x40 id) 0xF = id.
Proof. intros Hid. stream_id_cases id H; by vm_compute. Qed.

Lemma data_header_bits (id : Z) :
  0 ≤ id ≤ 15 →
  Z.testbit id 7 = false ∧ Z.testbit id 6 = false
  ∧ Z.testbit id 5 = false ∧ Z.testbit id 4 = false
  ∧ Z.land id 0xF = id.
Proof. intros Hid. stream_id_cases id H; by vm_compute. Qed.

(** C2, as the specification states it, fails on the first record a
    writer emits: the header byte of the definition record of stream 0 is
    [0x40], whose bit 7 is clear and whose bit 6 is set. *)
Lemma definition_header_bit7_clear :
  fst (define_message FitWriter_init 0 [(0, 1, 0x00)]) = Ok 0
  ∧ data (snd (define_message FitWriter_init 0 [(0, 1, 0x00)]))
    = [0x40; 0; 0; 0; 0; 1; 0; 1; 0x00]
  ∧ Z.testbit 0x40 7 = false
  ∧ Z.testbit 0x40 6 = true.
Proof. by vm_compute. Qed.

(** C2, amended. The first byte of every record tells its kind in bit 6,
    with bit 7 clear in both kinds: for a stream id in [0..15], the
    definition record appended by [define_message] starts with a byte
    whose bit 7 is 0, bit 6 is 1, bits 5..4 are 0 and bits 3..0 are the
    stream id assigned; the data record appended by [write_data_message]
    starts with a byte whose bits 7..4 are 0 and whose bits 3..0 are the
    stream id found for the message type. *)
Theorem record_header_byte self g :
  (∀ fields,
     0 ≤ next_local_id self ≤ 15 → define_args_ok g fields = true →
     ∃ header body,
       fst (define_message self g fields) = Ok (next_local_id self)
       ∧ data (snd (define_message self g fields))
         = data self ++ header :: body
       ∧ Z.testbit header 7 = false ∧ Z.testbit header 6 = true
       ∧ Z.testbit header 5 = false ∧ Z.testbit header 4 = false
       ∧ Z.land header 0xF = next_local_id self)
  ∧ (∀ values id,
       local_message_types self !! g = Some id → 0 ≤ id ≤ 15 →
       ∃ header rest,
         data (snd (write_data_message self g values))
         = data self ++ header :: rest
         ∧ (forallb bytes_ok values = true →
            fst (write_data_message self g values) = Ok ()
            ∧ rest = concat values)
         ∧ Z.testbit header 7 = false ∧ Z.testbit header 6 = false
         ∧ Z.testbit header 5 = false ∧ Z.testbit header 4 = false
         ∧ Z.land header 0xF = id).
Proof.
  split.
  - intros fields Hid Hargs.
    exists (Z.lor 0x40 (next_local_id self)), (definition_body g fields).
    rewrite define_message_ok by (done || lia).
    split; [done|]. split; [done|]. by apply definition_header_bits.
  - intros values id Hg Hid.
    destruct (write_data_message_header self g values id) as [rest Hrest];
      [done|lia|].
    exists id, rest. split; [done|]. split; [|by apply data_header_bits].
    intros Hvalues. rewrite write_data_message_ok with (id := id) in Hrest |- *
      by (done || lia).
    split; [done|]. simpl in Hrest. by simplify_list_eq.
Qed.

Lemma record_header_byte_witness :
  (∃ header body,
     data (snd (define_message FitWriter_init 26 [(4, 1, 0x00)]))
     = header :: body
     ∧ Z.testbit header 7 = false ∧ Z.testbit header 6 = true
     ∧ Z.land header 0xF = 0)
  ∧ (∃ header rest,
       data (snd (write_data_message
                    (snd (define_message FitWriter_init 26 [(4, 1, 0x00)]))
                    26 [[2]]))
       = data (snd (define_message FitWriter_init 26 [(4, 1, 0x00)]))
         ++ header :: rest
       ∧ Z.testbit header 7 = false ∧ Z.land header 0xF = 0).
Proof.
  split.
  - destruct (record_header_byte FitWriter_init 26) as [Hdef _].
    destruct (Hdef [(4, 1, 0x00)]) as (header & body & _ & H1 & H2 & H3 & _ & _ & H4).
    + simpl. lia.
    + reflexivity.
    + exists header, body. split; [exact H1|]. split; [exact H2|].
      split; [exact H3|exact H4].
  - destruct (record_header_byte
                (snd (define_message FitWriter_init 26 [(4, 1, 0x00)])) 26)
      as [_ Hdat].
    destruct (Hdat [[2]] 0) as (header & rest & H1 & _ & H2 & _ & _ & _ & H3).
    + reflexivity.
    + lia.
    + exists header, rest. split; [exact H1|]. split; [exact H2|exact H3].
Defined.

(** ** [finalize] *)

Lemma finalize_state self : snd (finalize self) = self.
Proof. reflexivity. Qed.

Lemma pack_BBHI4s_ok (a b h i : Z) (s : list Z) :
  byte_ok a = true → byte_ok b = true → u16 h → 0 ≤ i ≤ 4294967295 →
  pack_BBHI4s a b h i s = Ok ([a; b] ++ le_bytes_2 h ++ le_bytes_4 i ++ s).
Proof.
  intros Ha Hb Hh Hi. unfold pack_BBHI4s.
  by rewrite !pack_B_ok, pack_H_ok, pack_I_ok.
Qed.

Lemma finalize_unfold self packed :
  pack_BBHI4s FIT_HEADER_SIZE FIT_PROTOCOL_VERSION FIT_PROFILE_VERSION
              (Z.of_nat (length (data self))) FIT_DATA_TYPE = Ok packed →
  packed ≠ [] →
  fst (finalize self)
  = Ok ((packed ++ le_bytes_2 (calculate_crc packed 0))
        ++ data self ++ le_bytes_2 (calculate_crc (data self) 0)).
Proof.
  intros Hpacked Hne. unfold finalize. cbn [fst]. rewrite Hpacked.
  cbn [mbind result_bind].
  assert (u16 (calculate_crc packed 0)) as H1
    by (apply calculate_crc_u16; by left).
  assert (u16 (calculate_crc (data self) 0)) as H2
    by (apply calculate_crc_u16; right; unfold u16; lia).
  rewrite (pack_H_ok _ H1). cbn [mbind result_bind].
  rewrite (pack_H_ok _ H2). reflexivity.
Qed.

(** The layout of the returned file, for a buffer whose length fits the
    32-bit size field: a 14-byte header (12 packed bytes and their
    checksum) that carries the buffer length, the buffer, and the
    checksum of the buffer. *)
Lemma finalize_layout self :
  Z.of_nat (length (data self)) ≤ 4294967295 →
  ∃ header trailer,
    fst (finalize self) = Ok (header ++ data self ++ trailer)
    ∧ length header = 14%nat ∧ length trailer = 2%nat
    ∧ read_u32_le (take 4 (drop 4 header)) = Z.of_nat (length (data self))
    ∧ read_u16_le (drop 12 header) = calculate_crc (take 12 header) 0
    ∧ read_u16_le trailer = calculate_crc (data self) 0.
Proof.
  intros Hlen.
  pose proof (pack_BBHI4s_ok FIT_HEADER_SIZE FIT_PROTOCOL_VERSION
                FIT_PROFILE_VERSION (Z.of_nat (length (data self)))
                FIT_DATA_TYPE) as Hpack.
  destruct (le_bytes_4 (Z.of_nat (length (data self))))
    as [|i0 [|i1 [|i2 [|i3 [|]]]]] eqn:Hsz; try discriminate Hsz.
  specialize (Hpack eq_refl eq_refl).
  assert (u16 FIT_PROFILE_VERSION) as Hprofile
    by (unfold u16, FIT_PROFILE_VERSION; lia).
  specialize (Hpack Hprofile). clear Hprofile.
  assert (0 ≤ Z.of_nat (length (data self)) ≤ 4294967295) as Hrange by lia.
  specialize (Hpack Hrange).
  match type of Hpack with _ = Ok ?l => remember l as packed eqn:Hp end.
  assert (length packed = 12%nat) as Hlen12 by (by subst packed).
  assert (∀ l, take 4 (drop 4 (packed ++ l)) = [i0; i1; i2; i3]) as Hfield
    by (by subst packed).
  assert (packed ≠ []) as Hne by (by subst packed).
  clear Hp. rewrite (finalize_unfold self packed Hpack Hne).
  eexists _, _. split; [reflexivity|].
  split; [by rewrite length_app, Hlen12|]. split; [reflexivity|].
  split; [rewrite Hfield, <- Hsz; by apply read_u32_le_bytes|].
  rewrite drop_app_length', take_app_length' by done.
  split; apply read_u16_le_bytes, calculate_crc_u16; [by left|right].
  unfold u16. lia.
Qed.

(** C3, as the specification states it, fails: the file of a fresh writer
    has 16 bytes, not 18, because the header has 14 bytes (12 packed
    bytes and a 2-byte checksum), not 16. *)
Lemma empty_file_is_16_bytes :
  fst (finalize FitWriter_init)
  = Ok [14; 0x20; 0x5C; 0x08; 0; 0; 0; 0; 46; 70; 73; 84; 56; 59; 0; 0]
  ∧ length [14; 0x20; 0x5C; 0x08; 0; 0; 0; 0; 46; 70; 73; 84; 56; 59; 0; 0 : Z]
    ≠ 18%nat.
Proof. split; [by vm_compute|discriminate]. Qed.

(** C3, amended. [finalize] on a freshly constructed writer returns
    exactly 16 bytes: a 14-byte header, an empty payload and a 2-byte
    trailer; the payload length field of the header reads 0 and the
    trailer is the checksum of the empty byte sequence with seed 0, which
    is [0x0000]. *)
Theorem finalize_empty_writer :
  ∃ header trailer,
    fst (finalize FitWriter_init) = Ok (header ++ [] ++ trailer)
    ∧ length header = 14%nat ∧ length trailer = 2%nat
    ∧ length (header ++ [] ++ trailer) = 16%nat
    ∧ read_u32_le (take 4 (drop 4 header)) = 0
    ∧ read_u16_le trailer = calculate_crc [] 0
    ∧ calculate_crc [] 0 = 0x0000.
Proof.
  destruct (finalize_layout FitWriter_init) as (h & t & H1 & H2 & H3 & H4 & _ & H5).
  { simpl. lia. }
  exists h, t. split; [exact H1|]. split; [done|]. split; [done|].
  split; [by rewrite !length_app, H2, H3|]. by repeat split.
Qed.

(** C9. [finalize] leaves the writer as it found it (buffer, table and
    counter), whether it returns or raises; a second call right after the
    first returns the same bytes; and what it returns is derived from the
    buffer alone. *)
Theorem finalize_leaves_writer_unchanged self :
  snd (finalize self) = self
  ∧ data (snd (finalize self)) = data self
  ∧ local_message_types (snd (finalize self)) = local_message_types self
  ∧ next_local_id (snd (finalize self)) = next_local_id self
  ∧ fst (finalize (snd (finalize self))) = fst (finalize self)
  ∧ (∀ table counter,
       fst (finalize {| data := data self; local_message_types := table;
                        next_local_id := counter |})
       = fst (finalize self)).
Proof. by repeat split. Qed.

(** ** Sessions *)

Lemma run_cons self c cs :
  run self (c :: cs)
  = (fst (step self c) :: fst (run (snd (step self c)) cs),
     snd (run (snd (step self c)) cs)).
Proof.
  cbn [run]. destruct (step self c) as [r self']. cbn [fst snd].
  by destruct (run self' cs) as [rs self''].
Qed.

Lemma run_app self cs1 cs2 :
  snd (run self (cs1 ++ cs2)) = snd (run (snd (run self cs1)) cs2).
Proof.
  revert self. induction cs1 as [|c cs1 IH]; intros self; [done|].
  rewrite <- app_comm_cons, !run_cons. cbn [snd]. apply IH.
Qed.

Lemma step_table self c :
  local_message_types (snd (step self c))
  = match c with
    | DefineMessage g _ => <[g := next_local_id self]> (local_message_types self)
    | _ => local_message_types self
    end.
Proof.
  destruct c as [g fields|g values|]; cbn [step].
  - pose proof (define_message_table self g fields) as H.
    by destruct (define_message self g fields).
  - pose proof (write_data_message_table self g values) as H.
    by destruct (write_data_message self g values).
  - done.
Qed.

Lemma step_next_local_id self c :
  next_local_id (snd (step self c))
  = if is_define c then next_local_id self + 1 else next_local_id self.
Proof.
  destruct c as [g fields|g values|]; cbn [step is_define].
  - pose proof (define_message_next_local_id self g fields) as H.
    by destruct (define_message self g fields).
  - pose proof (write_data_message_next_local_id self g values) as H.
    by destruct (write_data_message self g values).
  - done.
Qed.

Lemma step_next_local_id_mono self c :
  next_local_id self ≤ next_local_id (snd (step self c)).
Proof. rewrite step_next_local_id. destruct (is_define c); lia. Qed.

(** A message type no [define_message] call names stays out of the
    table. *)
Lemma run_table_undefined cs self g :
  local_message_types self !! g = None → g ∉ defined_types cs →
  local_message_types (snd (run self cs)) !! g = None.
Proof.
  revert self. induction cs as [|c cs IH]; intros self Hg Hcs; [done|].
  rewrite run_cons. cbn [snd]. apply IH.
  - rewrite step_table. destruct c as [g' fields| |]; try done.
    apply lookup_insert_None. split; [done|].
    intros ->. apply Hcs. unfold defined_types. simpl. left.
  - intros Hin. apply Hcs. unfold defined_types in *.
    destruct c; simpl; try done. by right.
Qed.

(** C5. In a session that has not passed the message type to
    [define_message], [write_data_message] for that type raises the
    undefined-key error ([KeyError] of the table lookup) instead of
    skipping, and leaves the writer, so in particular the buffer and its
    length, as they were. *)
Theorem write_data_message_undefined (cs : list call) g values :
  g ∉ defined_types cs →
  write_data_message (session_state cs) g values
  = (Raise (KeyError g), session_state cs)
  ∧ data (snd (write_data_message (session_state cs) g values))
    = data (session_state cs)
  ∧ length (data (snd (write_data_message (session_state cs) g values)))
    = length (data (session_state cs)).
Proof.
  intros Hg.
  assert (local_message_types (session_state cs) !! g = None) as Hnone.
  { by apply run_table_undefined. }
  by rewrite undefined_key_raises.
Qed.

Lemma write_data_message_undefined_witness :
  write_data_message
    (session_state [DefineMessage 0 [(0, 1, 0x00)]; WriteDataMessage 0 [[5]]])
    26 [[2]]
  = (Raise (KeyError 26),
     session_state [DefineMessage 0 [(0, 1, 0x00)]; WriteDataMessage 0 [[5]]]).
Proof.
  refine (proj1 (write_data_message_undefined
            [DefineMessage 0 [(0, 1, 0x00)]; WriteDataMessage 0 [[5]]]
            26 [[2]] _)).
  simpl. apply not_elem_of_cons. split; [discriminate|apply not_elem_of_nil].
Defined.

(** ** The stream-id table *)

Lemma table_inv_init : table_inv FitWriter_init.
Proof. split; intros g; intros; simplify_map_eq. Qed.

Lemma table_inv_step self c : table_inv self → table_inv (snd (step self c)).
Proof.
  intros [Hdistinct Hbelow].
  unfold table_inv, stream_ids_distinct, stream_ids_below_counter.
  rewrite step_table, step_next_local_id.
  destruct c as [g fields|g values|]; cbn [is_define]; [|done..].
  split.
  - intros g1 g2 id H1 H2.
    apply lookup_insert_Some in H1 as [[-> <-]|[Hne1 H1]];
      apply lookup_insert_Some in H2 as [[-> Hid]|[Hne2 H2]]; try done.
    + apply Hbelow in H2. lia.
    + apply Hbelow in H1. lia.
    + by eapply Hdistinct.
  - intros g' id H.
    apply lookup_insert_Some in H as [[-> <-]|[Hne H]]; [lia|].
    apply Hbelow in H. lia.
Qed.

Lemma table_inv_run cs self : table_inv self → table_inv (snd (run self cs)).
Proof.
  revert self. induction cs as [|c cs IH]; intros self Hinv; [done|].
  rewrite run_cons. cbn [snd]. by apply IH, table_inv_step.
Qed.

Lemma assignments_cons self c cs :
  assignments self (c :: cs)
  = match c with
    | DefineMessage g _ => [(g, next_local_id self)]
    | _ => []
    end ++ assignments (snd (step self c)) cs.
Proof. reflexivity. Qed.

(** The counter never hands out an id below its current value. *)
Lemma assignments_ge cs self g id :
  (g, id) ∈ assignments self cs → next_local_id self ≤ id.
Proof.
  revert self. induction cs as [|c cs IH]; intros self Hin.
  - by apply elem_of_nil in Hin.
  - rewrite assignments_cons in Hin. apply elem_of_app in Hin as [Hin|Hin].
    + destruct c; try by apply elem_of_nil in Hin.
      apply list_elem_of_singleton in Hin. injection Hin as _ ->. lia.
    + apply IH in Hin. pose proof (step_next_local_id_mono self c). lia.
Qed.

Lemma assignments_NoDup cs self : NoDup (assignments self cs).*2.
Proof.
  revert self. induction cs as [|c cs IH]; intros self; [constructor|].
  rewrite assignments_cons.
  destruct c as [g fields|g values|]; cbn [app]; [|apply IH..].
  rewrite fmap_cons. constructor; [|apply IH].
  intros ([g' id] & Hid & Hin)%list_elem_of_fmap. simpl in Hid. subst id.
  apply assignments_ge in Hin. rewrite step_next_local_id in Hin.
  simpl in Hin. lia.
Qed.

(** Whatever the table holds was put there by an assignment of the
    session (or was there at its start). *)
Lemma table_from_assignments cs self g id :
  local_message_types (snd (run self cs)) !! g = Some id →
  local_message_types self !! g = Some id ∨ (g, id) ∈ assignments self cs.
Proof.
  revert self. induction cs as [|c cs IH]; intros self H; [by left|].
  rewrite run_cons in H. cbn [snd] in H. apply IH in H as [H|H].
  - rewrite step_table in H. rewrite assignments_cons.
    destruct c as [g' fields|g' values|]; [|by left..].
    apply lookup_insert_Some in H as [[-> <-]|[Hne H]]; [|by left].
    right. apply elem_of_app. left. apply list_elem_of_singleton. done.
  - right. rewrite assignments_cons. apply elem_of_app. by right.
Qed.

(** C8. In the writer reached by any session (any sequence of
    [define_message], [write_data_message] and [finalize] calls on a new
    writer, raised exceptions included), no two message types have the
    same stream id in the table; every table entry comes from an
    assignment of the session, and no stream id is assigned twice, so an
    id given to one message type is never given to another later; and
    every further call keeps the table that way. *)
Theorem stream_ids_unique (cs : list call) :
  stream_ids_distinct (session_state cs)
  ∧ (∀ g id, local_message_types (session_state cs) !! g = Some id →
             (g, id) ∈ assignments FitWriter_init cs)
  ∧ (∀ i j g g' id,
       assignments FitWriter_init cs !! i = Some (g, id) →
       assignments FitWriter_init cs !! j = Some (g', id) →
       i = j ∧ g = g')
  ∧ (∀ c, stream_ids_distinct (snd (step (session_state cs) c)))
  ∧ (∀ self c, table_inv self → table_inv (snd (step self c))).
Proof.
  assert (table_inv (session_state cs)) as Hinv
    by apply table_inv_run, table_inv_init.
  split; [apply Hinv|]. split.
  { intros g id H. apply table_from_assignments in H as [H|H]; [|done].
    cbn [FitWriter_init local_message_types] in H.
    by rewrite lookup_empty in H. }
  split.
  { intros i j g g' id Hi Hj.
    assert (i = j) as ->.
    { eapply NoDup_lookup; [apply (assignments_NoDup cs FitWriter_init)|..];
        rewrite list_lookup_fmap.
      - by rewrite Hi.
      - by rewrite Hj. }
    split; [done|]. congruence. }
  split; [|apply table_inv_step].
  intros c. by apply table_inv_step.
Qed.

(** ** Capacity *)

Lemma define_results_cons self c cs :
  define_results (c :: cs) (fst (run self (c :: cs)))
  = (if is_define c then [fst (step self c)] else [])
    ++ define_results cs (fst (run (snd (step self c)) cs)).
Proof. rewrite run_cons. by destruct c. Qed.

Lemma defined_types_cons c cs :
  length (defined_types (c :: cs))
  = ((if is_define c then 1 else 0) + length (defined_types cs))%nat.
Proof. by destruct c. Qed.

Lemma define_results_run cs self :
  forallb call_ok cs = true →
  0 ≤ next_local_id self →
  next_local_id self + Z.of_nat (length (defined_types cs)) ≤ 256 →
  define_results cs (fst (run self cs))
  = (λ n, Ok (VInt n))
      <$> seqZ (next_local_id self) (Z.of_nat (length (defined_types cs))).
Proof.
  revert self. induction cs as [|c cs IH]; intros self Hok Hlo Hhi; [done|].
  simpl in Hok. apply andb_true_iff in Hok as [Hc Hcs].
  rewrite defined_types_cons in Hhi |- *.
  pose proof (step_next_local_id self c) as Hnext.
  rewrite define_results_cons, IH, Hnext by (done || destruct c; simpl in *; lia).
  destruct c as [g fields|g values|]; cbn [is_define app call_ok] in *;
    [|done..].
  rewrite (seqZ_cons (next_local_id self)) by lia. rewrite fmap_cons.
  cbn [step]. rewrite define_message_ok by (done || lia). cbn [fst rmap].
  do 3 f_equal; lia.
Qed.

(** C4, as the specification states it, fails at the seventeenth call:
    after sixteen definitions, which return 0 to 15, [define_message]
    returns 16 and appends a definition record whose header byte is
    [0x50]. *)
Lemma seventeenth_define_message_succeeds :
  fst (run FitWriter_init sixteen_definitions)
  = (λ n, Ok (VInt n)) <$> seqZ 0 16
  ∧ fst (define_message (session_state sixteen_definitions) 16 [(0, 1, 0x00)])
    = Ok 16
  ∧ data (snd (define_message (session_state sixteen_definitions)
                              16 [(0, 1, 0x00)]))
    = data (session_state sixteen_definitions)
      ++ [0x50; 0; 0; 16; 0; 1; 0; 1; 0x00].
Proof. by vm_compute. Qed.

(** C4, amended. In any session whose [define_message] calls have
    arguments [struct.pack] accepts, the first 256 of them all succeed and
    return the stream ids 0, 1, 2, ... in order: sixteen calls return 0 to
    15, and a seventeenth returns 16. *)
Theorem define_message_stream_ids (cs : list call) :
  forallb call_ok cs = true →
  (length (defined_types cs) ≤ 256)%nat →
  define_results cs (fst (run FitWriter_init cs))
  = (λ n, Ok (VInt n)) <$> seqZ 0 (Z.of_nat (length (defined_types cs))).
Proof.
  intros Hok Hlen. apply (define_results_run cs FitWriter_init Hok); simpl; lia.
Qed.

Lemma define_message_stream_ids_witness :
  define_results (sixteen_definitions ++ [DefineMessage 16 [(0, 1, 0x00)]])
    (fst (run FitWriter_init
            (sixteen_definitions ++ [DefineMessage 16 [(0, 1, 0x00)]])))
  = (λ n, Ok (VInt n)) <$> seqZ 0 17.
Proof.
  apply (define_message_stream_ids
           (sixteen_definitions ++ [DefineMessage 16 [(0, 1, 0x00)]])).
  - reflexivity.
  - vm_compute. lia.
Defined.

(** ** The script's own use of the writer *)

(** One definition and one matching data record, then [finalize]: the
    payload, the size field and both checksums. *)
Example define_write_finalize :
  let (_, w1) := define_message FitWriter_init 0 [(0, 1, 0x00); (1, 2, 0x84)] in
  let (_, w2) := write_data_message w1 0 [[0x05]; [0x01; 0x00]] in
  data w2 = [0x40; 0; 0; 0; 0; 2; 0; 1; 0x00; 1; 2; 0x84; 0x00; 0x05; 0x01; 0x00]
  ∧ fst (finalize w2)
    = Ok ([14; 0x20; 0x5C; 0x08; 16; 0; 0; 0; 46; 70; 73; 84; 57; 55]
          ++ data w2 ++ [199; 117])
  ∧ read_u16_le [199; 117] = calculate_crc (data w2) 0.
Proof. by vm_compute. Qed.

(** * Further properties of the checksum *)

Lemma land_ones_4 (x : Z) : Z.land x 0xF = x `mod` 16.
Proof. change 0xF with (Z.ones 4). by rewrite Z.land_ones by lia. Qed.

Lemma land_ones_8 (x : Z) : Z.land x 255 = x `mod` 256.
Proof. change 255 with (Z.ones 8). by rewrite Z.land_ones by lia. Qed.

Lemma land_ones_12 (x : Z) : Z.land x 0x0FFF = x `mod` 4096.
Proof. change 0x0FFF with (Z.ones 12). by rewrite Z.land_ones by lia. Qed.

(** A nibble step whose nibble is the low nibble of the accumulator only
    shifts: the two table values cancel. *)
Lemma nibble_step_own_nibble (acc n : Z) :
  n = Z.land acc 0xF →
  Z.lxor (Z.lxor (Z.land (Z.shiftr acc 4) 0x0FFF)
                 (CRC_TABLE_get (Z.land acc 0xF)))
         (CRC_TABLE_get n)
  = Z.land (Z.shiftr acc 4) 0x0FFF.
Proof.
  intros ->. by rewrite Z.lxor_assoc, Z.lxor_nilpotent, Z.lxor_0_r.
Qed.

(** Feeding the accumulator its own low byte shifts it right by eight. *)
Lemma crc_loop_body_own_byte (crc : Z) :
  u16 crc → crc_loop_body crc (Z.land crc 255) = Z.shiftr crc 8.
Proof.
  unfold u16. intros Hcrc. unfold crc_loop_body. cbv zeta.
  rewrite (nibble_step_own_nibble crc).
  2:{ rewrite !land_ones_4, land_ones_8. Z.div_mod_to_equations. lia. }
  rewrite nibble_step_own_nibble.
  2:{ rewrite !land_ones_4, land_ones_8, land_ones_12,
        !Z.shiftr_div_pow2 by lia.
      change (2 ^ 4) with 16. Z.div_mod_to_equations. lia. }
  rewrite !land_ones_12, !Z.shiftr_div_pow2 by lia.
  change (2 ^ 4) with 16. change (2 ^ 8) with 256.
  Z.div_mod_to_equations. lia.
Qed.

Lemma calculate_crc_own_bytes (crc : Z) :
  u16 crc → calculate_crc (le_bytes_2 crc) crc = 0.
Proof.
  intros Hcrc. unfold le_bytes_2.
  rewrite !calculate_crc_cons, calculate_crc_nil.
  rewrite crc_loop_body_own_byte by done.
  assert (u16 (Z.shiftr crc 8)) as Hhi.
  { unfold u16 in *. rewrite Z.shiftr_div_pow2 by lia.
    change (2 ^ 8) with 256. Z.div_mod_to_equations. lia. }
  rewrite crc_loop_body_own_byte by done.
  unfold u16 in Hcrc. rewrite !Z.shiftr_div_pow2 by lia.
  change (2 ^ 8) with 256. Z.div_mod_to_equations. lia.
Qed.

Lemma crc_of_data_and_checksum (data : list Z) :
  calculate_crc (data ++ le_bytes_2 (calculate_crc data 0)) 0 = 0.
Proof.
  rewrite calculate_crc_app. apply calculate_crc_own_bytes.
  apply calculate_crc_u16. right. unfold u16. lia.
Qed.

(** X1. A byte sequence followed by its own checksum, low byte first as
    [struct.pack('<H', ...)] writes it, has checksum 0: this is how a
    reader checks the header and the payload of a file. *)
Theorem calculate_crc_residue (data : list Z) :
  calculate_crc (data ++ le_bytes_2 (calculate_crc data 0)) 0 = 0.
Proof. apply crc_of_data_and_checksum. Qed.

(** *** Error detection *)

Ltac bitwise :=
  apply Z.bits_inj'; intros ?n ?Hn;
  repeat (rewrite ?Z.lxor_spec, ?Z.land_spec, ?Z.shiftr_spec by lia);
  repeat match goal with |- context [Z.testbit ?x ?i] =>
    destruct (Z.testbit x i) end; reflexivity.

Lemma lxor_cancel_r (a b c : Z) : Z.lxor a c = Z.lxor b c → a = b.
Proof.
  intros H. apply (f_equal (λ x, Z.lxor x c)) in H.
  by rewrite !Z.lxor_assoc, !Z.lxor_nilpotent, !Z.lxor_0_r in H.
Qed.

Lemma lxor_cancel_l (a b c : Z) : Z.lxor c a = Z.lxor c b → a = b.
Proof. rewrite !(Z.lxor_comm c). apply lxor_cancel_r. Qed.

Lemma nibble_forall (P : Z → bool) :
  forallb P (seqZ 0 16) = true → ∀ i, 0 ≤ i < 16 → P i = true.
Proof.
  intros H i Hi. rewrite forallb_forall in H. apply H.
  apply list_elem_of_In, elem_of_seqZ. lia.
Qed.

Lemma byte_forall (P : Z → bool) :
  forallb P (seqZ 0 256) = true → ∀ i, 0 ≤ i < 256 → P i = true.
Proof.
  intros H i Hi. rewrite forallb_forall in H. apply H.
  apply list_elem_of_In, elem_of_seqZ. lia.
Qed.

(** The table is linear over XOR, and its top nibbles are all
    different. *)
Lemma CRC_TABLE_get_lxor (i j : Z) :
  0 ≤ i < 16 → 0 ≤ j < 16 →
  CRC_TABLE_get (Z.lxor i j) = Z.lxor (CRC_TABLE_get i) (CRC_TABLE_get j).
Proof.
  intros Hi Hj.
  pose proof (nibble_forall
    (λ i, forallb (λ j, CRC_TABLE_get (Z.lxor i j)
                        =? Z.lxor (CRC_TABLE_get i) (CRC_TABLE_get j))
                  (seqZ 0 16)) eq_refl i Hi) as H.
  cbv beta in H. pose proof (nibble_forall _ H j Hj) as H'. cbv beta in H'.
  by apply Z.eqb_eq.
Qed.

Lemma CRC_TABLE_get_top_inj (i j : Z) :
  0 ≤ i < 16 → 0 ≤ j < 16 →
  Z.shiftr (CRC_TABLE_get i) 12 = Z.shiftr (CRC_TABLE_get j) 12 → i = j.
Proof.
  intros Hi Hj Heq.
  pose proof (nibble_forall
    (λ i, forallb (λ j, implb (Z.shiftr (CRC_TABLE_get i) 12
                               =? Z.shiftr (CRC_TABLE_get j) 12) (i =? j))
                  (seqZ 0 16)) eq_refl i Hi) as H.
  cbv beta in H. pose proof (nibble_forall _ H j Hj) as H'. cbv beta in H'.
  apply Z.eqb_eq in Heq. rewrite Heq in H'. by apply Z.eqb_eq.
Qed.

Lemma crc_loop_body_shift_part (crc byte : Z) :
  crc_loop_body crc byte
  = Z.lxor (crc_shift_part
              (Z.lxor (crc_shift_part crc)
                      (CRC_TABLE_get (Z.land byte 0xF))))
           (CRC_TABLE_get (Z.land (Z.shiftr byte 4) 0xF)).
Proof. reflexivity. Qed.

Lemma crc_shift_part_u16 (crc : Z) : u16 (crc_shift_part crc).
Proof.
  unfold crc_shift_part. apply lxor_u16; [|apply CRC_TABLE_get_u16].
  pose proof (mask12_in_range (Z.shiftr crc 4)). unfold u16. lia.
Qed.

Lemma crc_shift_part_lxor (x y : Z) :
  crc_shift_part (Z.lxor x y)
  = Z.lxor (crc_shift_part x) (crc_shift_part y).
Proof.
  unfold crc_shift_part.
  assert (Z.land (Z.lxor x y) 0xF = Z.lxor (Z.land x 0xF) (Z.land y 0xF))
    as -> by bitwise.
  rewrite CRC_TABLE_get_lxor by apply low4_in_range.
  generalize (CRC_TABLE_get (Z.land x 0xF)) (CRC_TABLE_get (Z.land y 0xF)).
  intros t t'. bitwise.
Qed.

Lemma crc_shift_part_top (crc : Z) :
  Z.shiftr (crc_shift_part crc) 12
  = Z.shiftr (CRC_TABLE_get (Z.land crc 0xF)) 12.
Proof.
  unfold crc_shift_part. rewrite Z.shiftr_lxor.
  assert (Z.shiftr (Z.land (Z.shiftr crc 4) 0x0FFF) 12 = 0) as ->.
  { rewrite land_ones_12, Z.shiftr_div_pow2 by lia.
    change (2 ^ 12) with 4096. Z.div_mod_to_equations. lia. }
  apply Z.lxor_0_l.
Qed.

Lemma crc_shift_part_inj (c c' : Z) :
  u16 c → u16 c' → crc_shift_part c = crc_shift_part c' → c = c'.
Proof.
  unfold u16. intros Hc Hc' Heq.
  assert (Z.land c 0xF = Z.land c' 0xF) as Hlow.
  { apply CRC_TABLE_get_top_inj; [apply low4_in_range..|].
    by rewrite <- !crc_shift_part_top, Heq. }
  unfold crc_shift_part in Heq. rewrite Hlow in Heq.
  apply lxor_cancel_r in Heq.
  rewrite !land_ones_4 in Hlow.
  rewrite !land_ones_12, !Z.shiftr_div_pow2 in Heq by lia.
  change (2 ^ 4) with 16 in Heq. Z.div_mod_to_equations. lia.
Qed.

(** For a fixed byte, the loop body maps different 16-bit accumulators to
    different accumulators. *)
Lemma crc_loop_body_inj_crc (c c' byte : Z) :
  u16 c → u16 c' → crc_loop_body c byte = crc_loop_body c' byte → c = c'.
Proof.
  intros Hc Hc'. rewrite !crc_loop_body_shift_part.
  intros H%lxor_cancel_r%crc_shift_part_inj%lxor_cancel_r
           %crc_shift_part_inj; try done;
    apply lxor_u16; auto using crc_shift_part_u16, CRC_TABLE_get_u16.
Qed.

Lemma calculate_crc_inj_crc (data : list Z) (c c' : Z) :
  u16 c → u16 c' → calculate_crc data c = calculate_crc data c' → c = c'.
Proof.
  revert c c'. induction data as [|b data IH]; intros c c' Hc Hc' Heq; [done|].
  rewrite !calculate_crc_cons in Heq.
  apply IH in Heq; [|apply crc_loop_body_u16..].
  by apply crc_loop_body_inj_crc in Heq.
Qed.

(** The loop body is the XOR of what the accumulator alone gives and what
    the byte alone gives. *)
Lemma crc_loop_body_lxor (crc byte : Z) :
  crc_loop_body crc byte
  = Z.lxor (crc_loop_body crc 0) (crc_loop_body 0 byte).
Proof.
  rewrite !crc_loop_body_shift_part, !crc_shift_part_lxor.
  change (Z.land 0 0xF) with 0. change (Z.land (Z.shiftr 0 4) 0xF) with 0.
  change (crc_shift_part 0) with 0. change (CRC_TABLE_get 0) with 0.
  change (crc_shift_part 0) with 0.
  rewrite !Z.lxor_0_r, !Z.lxor_0_l.
  generalize (crc_shift_part (crc_shift_part crc))
             (crc_shift_part (CRC_TABLE_get (Z.land byte 0xF)))
             (CRC_TABLE_get (Z.land (Z.shiftr byte 4) 0xF)).
  intros x y z. bitwise.
Qed.

Lemma crc_loop_body_0_inj (b b' : Z) :
  0 ≤ b < 256 → 0 ≤ b' < 256 →
  crc_loop_body 0 b = crc_loop_body 0 b' → b = b'.
Proof.
  intros Hb Hb' Heq.
  pose proof (byte_forall
    (λ b, forallb (λ b', implb (crc_loop_body 0 b =? crc_loop_body 0 b')
                               (b =? b'))
                  (seqZ 0 256)) ltac:(by vm_compute) b Hb) as H.
  cbv beta in H. pose proof (byte_forall _ H b' Hb') as H'. cbv beta in H'.
  apply Z.eqb_eq in Heq. rewrite Heq in H'. by apply Z.eqb_eq.
Qed.

(** For a fixed accumulator, different bytes give different
    accumulators. *)
Lemma crc_loop_body_inj_byte (c b b' : Z) :
  0 ≤ b < 256 → 0 ≤ b' < 256 →
  crc_loop_body c b = crc_loop_body c b' → b = b'.
Proof.
  intros Hb Hb'. rewrite (crc_loop_body_lxor c b), (crc_loop_body_lxor c b').
  intros H%lxor_cancel_l. by apply crc_loop_body_0_inj.
Qed.

(** X2. The checksum detects every change of a single byte: two byte
    sequences that differ in exactly one position never have the same
    checksum, whatever the seed. *)
Theorem calculate_crc_detects_byte_change (pre post : list Z) (b b' seed : Z) :
  0 ≤ b < 256 → 0 ≤ b' < 256 → b ≠ b' →
  calculate_crc (pre ++ b :: post) seed ≠ calculate_crc (pre ++ b' :: post) seed.
Proof.
  intros Hb Hb' Hne. rewrite !calculate_crc_app, !calculate_crc_cons.
  intros Heq. apply calculate_crc_inj_crc in Heq; [|apply crc_loop_body_u16..].
  by apply crc_loop_body_inj_byte in Heq.
Qed.

Lemma calculate_crc_detects_byte_change_witness :
  0x5C ≠ 0x5D
  ∧ calculate_crc ([14; 0x20] ++ 0x5C :: [8]) 0
    ≠ calculate_crc ([14; 0x20] ++ 0x5D :: [8]) 0.
Proof.
  split; [discriminate|].
  apply (calculate_crc_detects_byte_change [14; 0x20] [8] 0x5C 0x5D 0);
    [lia|lia|discriminate].
Defined.

(** * Further properties of the writer *)

(** ** When [define_message] raises *)

Lemma pack_BBBHB_raise (a b c h d : Z) :
  byte_ok a && byte_ok b && byte_ok c
  && ((0 <=? h) && (h <=? 65535)) && byte_ok d = false →
  pack_BBBHB a b c h d = Raise StructError.
Proof.
  unfold pack_BBBHB, pack_B, pack_H.
  destruct (byte_ok a); [|done]. destruct (byte_ok b); [|done].
  destruct (byte_ok c); [|done].
  destruct ((0 <=? h) && (h <=? 65535)); [|done].
  by destruct (byte_ok d).
Qed.

Lemma pack_BBB_raise (a b c : Z) :
  field_ok (a, b, c) = false → pack_BBB a b c = Raise StructError.
Proof.
  unfold field_ok, pack_BBB, pack_B.
  destruct (byte_ok a); [|done]. destruct (byte_ok b); [|done].
  by destruct (byte_ok c).
Qed.

Lemma pack_field_defs_raise (fields : list (Z * Z * Z)) (definition : list Z) :
  forallb field_ok fields = false →
  pack_field_defs definition fields = Raise StructError.
Proof.
  revert definition. induction fields as [|[[a b] c] fields IH];
    intros definition Hbad; [done|].
  cbn [pack_field_defs]. cbn [forallb] in Hbad.
  destruct (field_ok (a, b, c)) eqn:Hf.
  - rewrite pack_BBB_ok by done. cbn [mbind result_bind]. by apply IH.
  - by rewrite pack_BBB_raise.
Qed.

Lemma definition_header_byte_bad (local_id : Z) :
  ¬ 0 ≤ local_id ≤ 255 → byte_ok (Z.lor 0x40 local_id) = false.
Proof.
  intros Hid. apply not_true_is_false. rewrite byte_ok_spec. intros [Hlo Hhi].
  apply Hid. pose proof (proj1 (Z.lor_nonneg _ _) Hlo) as [_ Hnonneg].
  split; [done|].
  assert (Z.lor 0x40 local_id `mod` 2 ^ 8 = Z.lor 0x40 local_id) as Hmod
    by (apply Z.mod_small; change (2 ^ 8) with 256; lia).
  assert (local_id `mod` 2 ^ 8 = local_id) as Hsmall.
  { apply Z.bits_inj'. intros n Hn.
    destruct (decide (n < 8)) as [Hlt|Hge].
    - by rewrite Z.mod_pow2_bits_low.
    - rewrite Z.mod_pow2_bits_high by lia.
      apply (f_equal (λ x, Z.testbit x n)) in Hmod.
      rewrite Z.mod_pow2_bits_high, Z.lor_spec in Hmod by lia.
      symmetry in Hmod. by apply orb_false_iff in Hmod as [_ ->]. }
  pose proof (Z.mod_pos_bound local_id (2 ^ 8)) as Hb.
  change (2 ^ 8) with 256 in *. lia.
Qed.

(** Outside the arguments and counters of [define_message_ok], the call
    raises [struct.error]; the buffer is as before, the table and the
    counter are not. *)
Lemma define_message_raise self g fields :
  ¬ (0 ≤ next_local_id self ≤ 255 ∧ define_args_ok g fields = true) →
  define_message self g fields =
    (Raise StructError,
     {| data := data self;
        local_message_types :=
          <[g := next_local_id self]> (local_message_types self);
        next_local_id := next_local_id self + 1 |}).
Proof.
  intros Hbad. unfold define_message. cbn [data local_message_types next_local_id].
  destruct (byte_ok (Z.lor 0x40 (next_local_id self))
            && byte_ok 0 && byte_ok 0
            && ((0 <=? g) && (g <=? 65535))
            && byte_ok (Z.of_nat (length fields))) eqn:Hhead.
  - apply andb_true_iff in Hhead as [Hhead Hlen].
    apply andb_true_iff in Hhead as [Hhead Hg].
    apply andb_true_iff in Hhead as [Hhead _].
    apply andb_true_iff in Hhead as [Hhead _].
    assert (u16 g) as Hg16.
    { unfold u16. apply andb_true_iff in Hg as [?%Z.leb_le ?%Z.leb_le]. lia. }
    destruct (forallb field_ok fields) eqn:Hfields.
    + exfalso. apply Hbad. split.
      * destruct (decide (0 ≤ next_local_id self ≤ 255)) as [|Hid]; [done|].
        apply definition_header_byte_bad in Hid. congruence.
      * apply define_args_ok_spec. split; [done|]. split; [|done].
        apply byte_ok_spec in Hlen. lia.
    + rewrite pack_BBBHB_ok by done.
      cbn [mbind result_bind]. by rewrite pack_field_defs_raise.
  - by rewrite pack_BBBHB_raise.
Qed.

(** X3. [define_message] returns a stream id exactly when the counter is
    in [0..255] and [struct.pack] accepts the arguments (a message type in
    [0..65535], at most 255 fields, every field component in [0..255]);
    the id returned is the counter, and in every other case the call
    raises [struct.error]. *)
Theorem define_message_succeeds_iff self g fields :
  (fst (define_message self g fields) = Ok (next_local_id self)
   ↔ 0 ≤ next_local_id self ≤ 255 ∧ define_args_ok g fields = true)
  ∧ (fst (define_message self g fields) = Raise StructError
     ↔ ¬ (0 ≤ next_local_id self ≤ 255 ∧ define_args_ok g fields = true))
  ∧ (∀ id, fst (define_message self g fields) = Ok id → id = next_local_id self)
  ∧ (∀ e, fst (define_message self g fields) = Raise e → e = StructError).
Proof.
  destruct (decide (0 ≤ next_local_id self ≤ 255
                    ∧ define_args_ok g fields = true)) as [[Hid Hargs]|Hbad].
  - rewrite define_message_ok by done. cbn [fst].
    split; [by split|]. split; [|split; congruence].
    split; [done|]. intros Hno. by destruct Hno.
  - rewrite define_message_raise by done. cbn [fst].
    split; [split; [done|by intros]|]. split; [by split|].
    split; congruence.
Qed.

Lemma extend_values_exn (values : list (list Z)) (buf : list Z) e :
  fst (extend_values buf values) = Raise e → e = ValueError.
Proof.
  revert buf. induction values as [|v values IH]; intros buf; [done|].
  cbn [extend_values]. unfold bytearray_extend.
  destruct (bytes_ok v); [apply IH|]. cbn [fst]. congruence.
Qed.

(** [KeyError] comes from the table lookup only. *)
Lemma write_data_message_key_error self g values k :
  fst (write_data_message self g values) = Raise (KeyError k) →
  local_message_types self !! g = None.
Proof.
  unfold write_data_message.
  destruct (local_message_types self !! g) as [id|]; [|done].
  unfold bytearray_append. destruct (byte_ok id); [|done].
  pose proof (extend_values_exn values (data self ++ [id]) (KeyError k)) as H.
  destruct (extend_values _ values) as [r buf]. cbn [fst] in *.
  intros Hr. by apply H in Hr.
Qed.

(** X4. A [define_message] call that raises appends nothing to the
    buffer, but it has already taken a stream id and bound the message
    type to it: the counter is one higher, the table maps the type to the
    old counter value, and a later [write_data_message] for that type
    does not raise [KeyError]. *)
Theorem define_message_raise_effect self g fields e :
  fst (define_message self g fields) = Raise e →
  data (snd (define_message self g fields)) = data self
  ∧ next_local_id (snd (define_message self g fields)) = next_local_id self + 1
  ∧ local_message_types (snd (define_message self g fields)) !! g
    = Some (next_local_id self)
  ∧ (∀ values,
       fst (write_data_message (snd (define_message self g fields)) g values)
       ≠ Raise (KeyError g)).
Proof.
  intros Hraise.
  destruct (decide (0 ≤ next_local_id self ≤ 255
                    ∧ define_args_ok g fields = true)) as [[Hid Hargs]|Hbad].
  { by rewrite define_message_ok in Hraise. }
  rewrite define_message_raise by done.
  cbn [snd data next_local_id local_message_types].
  split; [done|]. split; [done|]. split; [apply lookup_insert_eq|].
  intros values Hkey. apply write_data_message_key_error in Hkey.
  cbn [local_message_types] in Hkey. by rewrite lookup_insert_eq in Hkey.
Qed.

Lemma define_message_raise_effect_witness :
  data (snd (define_message FitWriter_init 70000 [(0, 1, 0x00)])) = []
  ∧ next_local_id (snd (define_message FitWriter_init 70000 [(0, 1, 0x00)])) = 1
  ∧ local_message_types (snd (define_message FitWriter_init 70000 [(0, 1, 0x00)]))
      !! 70000 = Some 0.
Proof.
  destruct (define_message_raise_effect FitWriter_init 70000 [(0, 1, 0x00)]
              StructError eq_refl) as (H1 & H2 & H3 & _).
  split; [exact H1|]. split; [exact H2|exact H3].
Defined.

(** ** When [write_data_message] raises *)

Lemma extend_values_stops (good rest : list (list Z)) (bad buf : list Z) :
  forallb bytes_ok good = true → bytes_ok bad = false →
  extend_values buf (good ++ bad :: rest)
  = (Raise ValueError, buf ++ concat good).
Proof.
  revert buf. induction good as [|v good IH]; intros buf Hgood Hbad.
  - cbn [app extend_values concat]. unfold bytearray_extend.
    by rewrite Hbad, app_nil_r.
  - cbn [forallb] in Hgood. apply andb_true_iff in Hgood as [Hv Hgood].
    cbn [app extend_values concat]. unfold bytearray_extend.
    by rewrite Hv, IH, <- app_assoc.
Qed.

Lemma extend_values_Ok (values : list (list Z)) (buf : list Z) :
  fst (extend_values buf values) = Ok () → forallb bytes_ok values = true.
Proof.
  revert buf. induction values as [|v values IH]; intros buf; [done|].
  cbn [extend_values forallb]. unfold bytearray_extend.
  destruct (bytes_ok v); [apply IH|done].
Qed.

(** X5. [write_data_message] returns normally exactly when the message
    type is in the table, its stream id is a byte, and every value is a
    sequence of bytes; the buffer then grows by the stream id followed by
    the values in order. *)
Theorem write_data_message_succeeds_iff self g values :
  (fst (write_data_message self g values) = Ok ()
   ↔ ∃ id, local_message_types self !! g = Some id ∧ 0 ≤ id ≤ 255
           ∧ forallb bytes_ok values = true)
  ∧ (∀ id, fst (write_data_message self g values) = Ok () →
           local_message_types self !! g = Some id →
           data (snd (write_data_message self g values))
           = data self ++ id :: concat values).
Proof.
  split; [split|].
  - unfold write_data_message, bytearray_append.
    destruct (local_message_types self !! g) as [id|]; [|done].
    destruct (byte_ok id) eqn:Hid; [|done].
    pose proof (extend_values_Ok values (data self ++ [id])) as Hvalues.
    destruct (extend_values _ values) as [r buf]. cbn [fst] in *.
    intros Hr. exists id. apply byte_ok_spec in Hid. auto.
  - intros (id & Hg & Hid & Hvalues).
    by rewrite write_data_message_ok with (id := id).
  - intros id Hok Hg.
    assert (∃ id', local_message_types self !! g = Some id' ∧ 0 ≤ id' ≤ 255
                   ∧ forallb bytes_ok values = true) as (id' & Hg' & Hid & Hv).
    { revert Hok. unfold write_data_message, bytearray_append. rewrite Hg.
      destruct (byte_ok id) eqn:Hid; [|done].
      pose proof (extend_values_Ok values (data self ++ [id])) as Hvalues.
      destruct (extend_values _ values) as [r buf]. cbn [fst] in *.
      intros Hr. exists id. apply byte_ok_spec in Hid. auto. }
    assert (id' = id) as -> by congruence.
    by rewrite write_data_message_ok with (id := id).
Qed.

(** X6. [write_data_message] is not all-or-nothing: when a value that is
    not a sequence of bytes follows values that are, the call raises
    [ValueError] after it has appended the record header and the values
    before the offending one, and they stay in the buffer. *)
Theorem write_data_message_partial self g id (good rest : list (list Z))
    (bad : list Z) :
  local_message_types self !! g = Some id → 0 ≤ id ≤ 255 →
  forallb bytes_ok good = true → bytes_ok bad = false →
  write_data_message self g (good ++ bad :: rest)
  = (Raise ValueError,
     {| data := data self ++ id :: concat good;
        local_message_types := local_message_types self;
        next_local_id := next_local_id self |}).
Proof.
  intros Hg Hid Hgood Hbad. unfold write_data_message, bytearray_append.
  rewrite Hg, (proj2 (byte_ok_spec id)), extend_values_stops by done.
  by rewrite <- app_assoc.
Qed.

Lemma write_data_message_partial_witness :
  write_data_message
    (snd (define_message FitWriter_init 0 [(0, 1, 0x00); (1, 2, 0x84)]))
    0 ([[5]] ++ [1; 256] :: [])
  = (Raise ValueError,
     {| data := [0x40; 0; 0; 0; 0; 2; 0; 1; 0x00; 1; 2; 0x84] ++ 0 :: [5];
        local_message_types := {[0 := 0]};
        next_local_id := 1 |}).
Proof.
  apply (write_data_message_partial
           (snd (define_message FitWriter_init 0 [(0, 1, 0x00); (1, 2, 0x84)]))
           0 0 [[5]] [] [1; 256]).
  - reflexivity.
  - lia.
  - reflexivity.
  - reflexivity.
Defined.

(** ** What every session keeps *)

Lemma step_data_prefix self c : data self `prefix_of` data (snd (step self c)).
Proof.
  destruct c as [g fields|g values|]; cbn [step].
  - destruct (decide (0 ≤ next_local_id self ≤ 255
                      ∧ define_args_ok g fields = true)) as [[Hid Hargs]|Hbad].
    + rewrite define_message_ok by done. cbn [snd data]. by eexists.
    + by rewrite define_message_raise.
  - unfold write_data_message, bytearray_append.
    destruct (local_message_types self !! g) as [id|]; [|done].
    destruct (byte_ok id); [|done].
    destruct (extend_values_prefix values (data self ++ [id])) as [k Hk].
    destruct (extend_values _ values) as [r buf]. cbn [snd data] in *.
    subst buf. rewrite <- app_assoc. by eexists.
  - done.
Qed.

Lemma run_data_prefix (cs : list call) self :
  data self `prefix_of` data (snd (run self cs)).
Proof.
  revert self. induction cs as [|c cs IH]; intros self; [done|].
  rewrite run_cons. cbn [snd].
  etrans; [apply step_data_prefix|apply IH].
Qed.

(** X7. The buffer is append-only: whatever calls a session makes, and
    whether they return or raise, the buffer before is a prefix of the
    buffer after. *)
Theorem buffer_append_only (cs : list call) self :
  data self `prefix_of` data (snd (run self cs)).
Proof. apply run_data_prefix. Qed.

Lemma run_next_local_id cs self :
  next_local_id (snd (run self cs))
  = next_local_id self + Z.of_nat (length (defined_types cs)).
Proof.
  revert self. induction cs as [|c cs IH]; intros self; [simpl; lia|].
  rewrite run_cons, defined_types_cons. cbn [snd].
  rewrite IH, step_next_local_id. destruct (is_define c); lia.
Qed.

(** X8. The counter counts the [define_message] calls of the session,
    those that raised included: it never goes down, and stream ids are
    not given back. *)
Theorem counter_counts_define_calls (cs : list call) :
  next_local_id (session_state cs) = Z.of_nat (length (defined_types cs))
  ∧ (∀ c, next_local_id (session_state cs)
          ≤ next_local_id (snd (step (session_state cs) c))).
Proof.
  split; [|intros c; apply step_next_local_id_mono].
  unfold session_state. by rewrite run_next_local_id.
Qed.

Lemma defined_types_cons_elem g c cs :
  g ∈ defined_types (c :: cs)
  ↔ (∃ fields, c = DefineMessage g fields) ∨ g ∈ defined_types cs.
Proof.
  unfold defined_types.
  destruct c as [g' fields|g' values|]; simpl.
  - rewrite elem_of_cons. split.
    + intros [->|H]; [left; by eexists|by right].
    + intros [[fields' [= -> _]]|H]; [by left|by right].
  - split; [by right|]. by intros [[? [=]]|H].
  - split; [by right|]. by intros [[? [=]]|H].
Qed.

Lemma run_table_defined cs self g :
  is_Some (local_message_types self !! g) ∨ g ∈ defined_types cs →
  is_Some (local_message_types (snd (run self cs)) !! g).
Proof.
  revert self. induction cs as [|c cs IH]; intros self H.
  - destruct H as [H|H]; [done|]. by apply elem_of_nil in H.
  - rewrite run_cons. cbn [snd]. apply IH. rewrite step_table.
    destruct H as [H|H%defined_types_cons_elem].
    + left. destruct c as [g' fields| |]; try done.
      rewrite lookup_insert_is_Some. destruct (decide (g' = g)); auto.
    + destruct H as [[fields ->]|H]; [|by right].
      left. rewrite lookup_insert_eq. by eexists.
Qed.

(** X9. In any session, [write_data_message] raises [KeyError] exactly
    for the message types that were never passed to [define_message]; a
    type is in the table once [define_message] was called with it, even
    if that call raised. *)
Theorem key_error_iff_never_defined (cs : list call) g values :
  (fst (write_data_message (session_state cs) g values) = Raise (KeyError g)
   ↔ g ∉ defined_types cs)
  ∧ (is_Some (local_message_types (session_state cs) !! g)
     ↔ g ∈ defined_types cs).
Proof.
  assert (is_Some (local_message_types (session_state cs) !! g)
          ↔ g ∈ defined_types cs) as Htable.
  { split.
    - intros Hsome. destruct (decide (g ∈ defined_types cs)) as [|Hnot]; [done|].
      apply (run_table_undefined cs FitWriter_init) in Hnot; [|done].
      unfold session_state in Hsome. rewrite Hnot in Hsome. by destruct Hsome.
    - intros Hin. apply run_table_defined. by right. }
  split; [|done]. split.
  - intros Hkey%write_data_message_key_error Hin.
    apply Htable in Hin. rewrite Hkey in Hin. by destruct Hin.
  - intros Hnot. by rewrite undefined_key_raises by by apply run_table_undefined.
Qed.

Lemma run_table_last_assignment cs self g :
  local_message_types (snd (run self cs)) !! g
  = match last (filter (λ p, p.1 = g) (assignments self cs)) with
    | Some p => Some p.2
    | None => local_message_types self !! g
    end.
Proof.
  revert self. induction cs as [|c cs IH]; intros self; [done|].
  rewrite run_cons, assignments_cons, filter_app, last_app. cbn [snd].
  rewrite IH.
  destruct (last (filter _ (assignments (snd (step self c)) cs))); [done|].
  rewrite step_table. destruct c as [g' fields|g' values|]; [|done..].
  destruct (decide (g' = g)) as [->|Hne].
  - rewrite filter_cons_True by done. cbn. by rewrite lookup_insert_eq.
  - rewrite filter_cons_False by done. cbn. by rewrite lookup_insert_ne.
Qed.

(** X10. Defining a message type again rebinds it: at any point of a
    session the table maps a message type to the stream id of the most
    recent [define_message] call for it, so later data records of that type
    carry the newest stream id. *)
Theorem table_holds_last_assignment (cs : list call) g :
  local_message_types (session_state cs) !! g
  = snd <$> last (filter (λ p, p.1 = g) (assignments FitWriter_init cs)).
Proof.
  unfold session_state. rewrite run_table_last_assignment.
  by destruct (last _).
Qed.

(** ** The finished file *)

Lemma finalize_file_layout self :
  Z.of_nat (length (data self)) ≤ 4294967295 →
  ∃ header trailer,
    fst (finalize self) = Ok (header ++ data self ++ trailer)
    ∧ length header = 14%nat ∧ length trailer = 2%nat
    ∧ length (header ++ data self ++ trailer)
      = (length (data self) + 16)%nat
    ∧ take 4 header = [14; 0x20; 2140 `mod` 256; 2140 `div` 256]
    ∧ read_u32_le (take 4 (drop 4 header)) = Z.of_nat (length (data self))
    ∧ take 4 (drop 8 header) = [46; 70; 73; 84]
    ∧ calculate_crc header 0 = 0
    ∧ calculate_crc (data self ++ trailer) 0 = 0.
Proof.
  intros Hlen.
  pose proof (pack_BBHI4s_ok FIT_HEADER_SIZE FIT_PROTOCOL_VERSION
                FIT_PROFILE_VERSION (Z.of_nat (length (data self)))
                FIT_DATA_TYPE) as Hpack.
  destruct (le_bytes_4 (Z.of_nat (length (data self))))
    as [|i0 [|i1 [|i2 [|i3 [|]]]]] eqn:Hsz; try discriminate Hsz.
  specialize (Hpack eq_refl eq_refl).
  assert (u16 FIT_PROFILE_VERSION) as Hprofile
    by (unfold u16, FIT_PROFILE_VERSION; lia).
  specialize (Hpack Hprofile). clear Hprofile.
  assert (0 ≤ Z.of_nat (length (data self)) ≤ 4294967295) as Hrange by lia.
  specialize (Hpack Hrange).
  match type of Hpack with _ = Ok ?l => remember l as packed eqn:Hp end.
  assert (length packed = 12%nat) as Hlen12 by (by subst packed).
  assert (∀ l, take 4 (packed ++ l) = [14; 0x20; 2140 `mod` 256; 2140 `div` 256])
    as Hstart by (by subst packed).
  assert (∀ l, take 4 (drop 4 (packed ++ l)) = [i0; i1; i2; i3]) as Hfield
    by (by subst packed).
  assert (∀ l, take 4 (drop 8 (packed ++ l)) = [46; 70; 73; 84]) as Htag
    by (by subst packed).
  assert (packed ≠ []) as Hne by (by subst packed).
  clear Hp. rewrite (finalize_unfold self packed Hpack Hne).
  eexists _, _. split; [reflexivity|].
  split; [by rewrite length_app, Hlen12|]. split; [reflexivity|].
  split; [rewrite !length_app, Hlen12; simpl; lia|].
  split; [apply Hstart|].
  split; [rewrite Hfield, <- Hsz; by apply read_u32_le_bytes|].
  split; [apply Htag|].
  split; apply crc_of_data_and_checksum.
Qed.

(** X11. For a buffer shorter than 2^32 bytes [finalize] returns the
    14-byte header, the buffer and a 2-byte trailer, 16 bytes more than
    the buffer: the header starts with the header size 14, the protocol
    version [0x20] and the profile version 2140, carries the buffer length
    as a little-endian u32 and the tag [.FIT]; the checksum of the whole
    header is 0, and so is the checksum of the buffer followed by the
    trailer. *)
Theorem finalize_file self :
  Z.of_nat (length (data self)) ≤ 4294967295 →
  ∃ header trailer,
    fst (finalize self) = Ok (header ++ data self ++ trailer)
    ∧ length header = 14%nat ∧ length trailer = 2%nat
    ∧ length (header ++ data self ++ trailer)
      = (length (data self) + 16)%nat
    ∧ take 4 header = [14; 0x20; 2140 `mod` 256; 2140 `div` 256]
    ∧ read_u32_le (take 4 (drop 4 header)) = Z.of_nat (length (data self))
    ∧ take 4 (drop 8 header) = [46; 70; 73; 84]
    ∧ calculate_crc header 0 = 0
    ∧ calculate_crc (data self ++ trailer) 0 = 0.
Proof. apply finalize_file_layout. Qed.

Lemma finalize_file_witness :
  ∃ header trailer,
    fst (finalize (snd (define_message FitWriter_init 0 [(0, 1, 0x00)])))
    = Ok (header ++ [0x40; 0; 0; 0; 0; 1; 0; 1; 0x00] ++ trailer)
    ∧ read_u32_le (take 4 (drop 4 header)) = 9
    ∧ calculate_crc header 0 = 0
    ∧ calculate_crc ([0x40; 0; 0; 0; 0; 1; 0; 1; 0x00] ++ trailer) 0 = 0.
Proof.
  destruct (finalize_file (snd (define_message FitWriter_init 0 [(0, 1, 0x00)])))
    as (header & trailer & H1 & _ & _ & _ & _ & H2 & _ & H3 & H4).
  - simpl. lia.
  - exists header, trailer. split; [exact H1|]. split; [exact H2|].
    split; [exact H3|exact H4].
Defined.

Lemma finalize_raise_cases self :
  (fst (finalize self) = Raise StructError
   ↔ 4294967295 < Z.of_nat (length (data self)))
  ∧ (∀ e, fst (finalize self) = Raise e → e = StructError).
Proof.
  destruct (decide (Z.of_nat (length (data self)) ≤ 4294967295)) as [Hle|Hgt].
  - destruct (finalize_layout self Hle) as (h & t & -> & _).
    split; [split; [done|intros; lia]|done].
  - assert (fst (finalize self) = Raise StructError) as ->.
    { unfold finalize, pack_BBHI4s. cbn [fst].
      rewrite !pack_B_ok by reflexivity.
      rewrite (pack_H_ok FIT_PROFILE_VERSION)
        by (unfold u16, FIT_PROFILE_VERSION; lia).
      cbn [mbind result_bind]. unfold pack_I.
      rewrite (proj2 (Z.leb_gt (Z.of_nat (length (data self))) 4294967295))
        by lia.
      by rewrite andb_false_r. }
    split; [split; [intros; lia|done]|congruence].
Qed.

(** X12. [finalize] raises exactly when the buffer holds 2^32 bytes or
    more, which the 32-bit size field cannot express; the exception is
    [struct.error], and nothing else makes it raise. *)
Theorem finalize_raises_iff self :
  (fst (finalize self) = Raise StructError
   ↔ 4294967295 < Z.of_nat (length (data self)))
  ∧ (∀ e, fst (finalize self) = Raise e → e = StructError).
Proof. apply finalize_raise_cases. Qed.

(** X13. [write_file_header] does not describe the writer it is called
    on: for every writer it returns the same 14 bytes, the header of an
    empty file (size field 0, with a valid header checksum), and leaves
    the writer unchanged; [finalize] produces that header exactly when
    the buffer is empty. *)
Theorem write_file_header_is_empty_header self :
  ∃ header,
    write_file_header self = (Ok header, self)
    ∧ length header = 14%nat
    ∧ read_u32_le (take 4 (drop 4 header)) = 0
    ∧ calculate_crc header 0 = 0
    ∧ fst (finalize FitWriter_init) = Ok (header ++ [0; 0])
    ∧ (∀ file, fst (finalize self) = Ok file →
               (take 14 file = header ↔ data self = [])).
Proof.
  exists [14; 0x20; 0x5C; 0x08; 0; 0; 0; 0; 46; 70; 73; 84; 56; 59].
  split; [by vm_compute|].
  split; [reflexivity|]. split; [reflexivity|].
  split; [by vm_compute|]. split; [by vm_compute|].
  intros file Hfile.
  destruct (decide (Z.of_nat (length (data self)) ≤ 4294967295)) as [Hle|Hgt].
  2:{ destruct (finalize_raise_cases self) as [[_ Hraise] _].
      rewrite Hraise in Hfile by lia. done. }
  destruct (finalize_layout self Hle) as (h & t & Hok & Hh & _ & Hsize & _).
  rewrite Hok in Hfile. injection Hfile as <-.
  rewrite take_app_length' by done. split.
  - intros ->. simpl in Hsize. destruct (data self); [done|]. simpl in Hsize. lia.
  - intros Hempty.
    assert (fst (finalize self) = fst (finalize FitWriter_init)) as Heq.
    { unfold finalize. cbn [fst]. by rewrite Hempty. }
    assert (fst (finalize FitWriter_init)
            = Ok ([14; 0x20; 0x5C; 0x08; 0; 0; 0; 0; 46; 70; 73; 84; 56; 59]
                  ++ [0; 0])) as Hinit by (by vm_compute).
    rewrite Hok, Hinit in Heq. injection Heq as Heq.
    apply (f_equal (take 14)) in Heq.
    rewrite take_app_length' in Heq by done. by rewrite Heq.
Qed.

(** * Properties of [encode_string] *)

Lemma byte_testbit (y : Z) :
  0 ≤ y ≤ 255 ↔ 0 ≤ y ∧ ∀ n, 8 ≤ n → Z.testbit y n = false.
Proof.
  split.
  - intros Hy. split; [lia|]. intros n Hn.
    rewrite <- (Z.mod_small y (2 ^ 8)) by (change (2 ^ 8) with 256; lia).
    apply Z.mod_pow2_bits_high. lia.
  - intros [Hlo Hbits].
    assert (y = y `mod` 2 ^ 8) as ->.
    { apply Z.bits_inj'. intros n Hn.
      destruct (decide (n < 8)) as [Hlt|Hge].
      - by rewrite Z.mod_pow2_bits_low.
      - rewrite Z.mod_pow2_bits_high by lia. apply Hbits. lia. }
    change (2 ^ 8) with 256.
    pose proof (Z.mod_pos_bound y 256). lia.
Qed.

Lemma lor_byte_ok (a b : Z) :
  0 ≤ a ≤ 255 → 0 ≤ b ≤ 255 → byte_ok (Z.lor a b) = true.
Proof.
  rewrite byte_ok_spec, !byte_testbit. intros [Ha Hab] [Hb Hbb]. split.
  - apply Z.lor_nonneg. lia.
  - intros n Hn. by rewrite Z.lor_spec, Hab, Hbb.
Qed.

Lemma continuation_byte_ok (x : Z) :
  byte_ok (Z.lor 0x80 (Z.land x 0x3F)) = true.
Proof.
  apply lor_byte_ok; [lia|].
  change 0x3F with (Z.ones 6). rewrite Z.land_ones by lia.
  change (2 ^ 6) with 64. pose proof (Z.mod_pos_bound x 64). lia.
Qed.

Lemma utf8_encode_code_point_bytes_ok (cp : Z) (b : list Z) :
  code_point_ok cp = true → utf8_encode_code_point cp = Some b →
  bytes_ok b = true.
Proof.
  unfold code_point_ok, utf8_encode_code_point.
  intros [Hlo%Z.leb_le Hhi%Z.leb_le]%andb_true_iff.
  destruct (Z.ltb_spec cp 0x80).
  { intros [= <-]. simpl. rewrite andb_true_r. apply byte_ok_spec. lia. }
  destruct (Z.ltb_spec cp 0x800).
  { intros [= <-]. cbn [bytes_ok forallb].
    rewrite continuation_byte_ok, lor_byte_ok; [done|lia|].
    rewrite Z.shiftr_div_pow2 by lia. change (2 ^ 6) with 64.
    Z.div_mod_to_equations. lia. }
  destruct (Z.ltb_spec cp 0x10000).
  { destruct (is_surrogate cp); [done|]. intros [= <-]. cbn [bytes_ok forallb].
    rewrite !continuation_byte_ok, lor_byte_ok; [done|lia|].
    rewrite Z.shiftr_div_pow2 by lia. change (2 ^ 12) with 4096.
    Z.div_mod_to_equations. lia. }
  intros [= <-]. cbn [bytes_ok forallb].
  rewrite !continuation_byte_ok, lor_byte_ok; [done|lia|].
  rewrite Z.shiftr_div_pow2 by lia. change (2 ^ 18) with 262144.
  Z.div_mod_to_equations. lia.
Qed.

Lemma bytes_ok_app (a b : list Z) :
  bytes_ok (a ++ b) = bytes_ok a && bytes_ok b.
Proof. apply forallb_app. Qed.

Lemma str_encode_utf8_bytes_ok (s utf8 : list Z) :
  forallb code_point_ok s = true → str_encode_utf8 s = Some utf8 →
  bytes_ok utf8 = true.
Proof.
  revert utf8. induction s as [|cp s IH]; intros utf8 Hs.
  - by intros [= <-].
  - cbn [forallb] in Hs. apply andb_true_iff in Hs as [Hcp Hs].
    cbn [str_encode_utf8].
    destruct (utf8_encode_code_point cp) as [b|] eqn:Hb; [|done].
    destruct (str_encode_utf8 s) as [bs|]; [|done].
    intros [= <-]. rewrite bytes_ok_app, (IH bs) by done.
    by rewrite (utf8_encode_code_point_bytes_ok cp b).
Qed.

Lemma utf8_encode_code_point_None (cp : Z) :
  utf8_encode_code_point cp = None ↔ is_surrogate cp = true.
Proof.
  unfold utf8_encode_code_point, is_surrogate.
  destruct (Z.ltb_spec cp 0x80); [split; [done|lia]|].
  destruct (Z.ltb_spec cp 0x800); [split; [done|lia]|].
  destruct (Z.ltb_spec cp 0x10000).
  - by destruct ((0xD800 <=? cp) && (cp <=? 0xDFFF)).
  - split; [done|lia].
Qed.

Lemma str_encode_utf8_None (s : list Z) :
  str_encode_utf8 s = None ↔ existsb is_surrogate s = true.
Proof.
  induction s as [|cp s IH]; [done|].
  cbn [str_encode_utf8 existsb]. rewrite orb_true_iff, <- IH.
  rewrite <- utf8_encode_code_point_None.
  destruct (utf8_encode_code_point cp), (str_encode_utf8 s);
    intuition congruence.
Qed.

Lemma utf8_encode_code_point_nonzero (cp : Z) (b : list Z) :
  cp ≠ 0 → utf8_encode_code_point cp = Some b → 0 ∉ b.
Proof.
  intros Hcp. unfold utf8_encode_code_point.
  assert (∀ a x, a ≠ 0 → Z.lor a x ≠ 0) as Hlor.
  { intros a x Ha Hz. by apply Z.lor_eq_0_iff in Hz as [? _]. }
  repeat case_match; try done; intros [= <-];
    repeat (apply not_elem_of_cons; split; [|]);
    try apply not_elem_of_nil; try (symmetry; by apply Hlor); done.
Qed.

Lemma str_encode_utf8_nonzero (s utf8 : list Z) :
  0 ∉ s → str_encode_utf8 s = Some utf8 → 0 ∉ utf8.
Proof.
  revert utf8. induction s as [|cp s IH]; intros utf8 Hs.
  - intros [= <-]. apply not_elem_of_nil.
  - apply not_elem_of_cons in Hs as [Hcp Hs]. cbn [str_encode_utf8].
    destruct (utf8_encode_code_point cp) as [b|] eqn:Hb; [|done].
    destruct (str_encode_utf8 s) as [bs|]; [|done].
    intros [= <-]. rewrite not_elem_of_app. split; [|by apply IH].
    by apply (utf8_encode_code_point_nonzero cp).
Qed.

Lemma until_nul_app_zero (b rest : list Z) :
  0 ∉ b → until_nul (b ++ 0 :: rest) = b.
Proof.
  induction b as [|x b IH]; intros Hb; [done|].
  apply not_elem_of_cons in Hb as [Hx Hb]. cbn [app until_nul].
  rewrite (proj2 (Z.eqb_neq x 0)) by done. by rewrite IH.
Qed.

Lemma bytes_ok_take (n : nat) (b : list Z) :
  bytes_ok b = true → bytes_ok (take n b) = true.
Proof.
  unfold bytes_ok. rewrite !forallb_forall. intros H x Hx. apply H.
  apply list_elem_of_In. apply list_elem_of_In in Hx.
  by apply (subseteq_take n b).
Qed.

Lemma bytes_ok_replicate_zero (n : nat) : bytes_ok (replicate n 0) = true.
Proof. induction n; [done|]. simpl. by rewrite IHn. Qed.

(** Positive lengths: the encoded text cut to [length - 1] bytes, then
    zeros up to [length]. *)
Lemma encode_string_positive (s utf8 : list Z) (n : Z) :
  1 ≤ n → str_encode_utf8 s = Some utf8 →
  encode_string s n
  = Some (take (Z.to_nat (n - 1)) utf8
          ++ replicate
               (Z.to_nat n - List.length (take (Z.to_nat (n - 1)) utf8)) 0).
Proof.
  intros Hn Hs. unfold encode_string, slice_to, zero_bytes. rewrite Hs.
  rewrite (proj2 (Z.leb_le 0 (n - 1))) by lia. do 3 f_equal.
  rewrite length_take. lia.
Qed.

Lemma encode_string_width (s utf8 : list Z) (n : Z) :
  1 ≤ n → forallb code_point_ok s = true → str_encode_utf8 s = Some utf8 →
  ∃ encoded padding,
    encode_string s n = Some (encoded ++ replicate (S padding) 0)
    ∧ encoded = take (Z.to_nat (n - 1)) utf8
    ∧ Z.of_nat (List.length (encoded ++ replicate (S padding) 0)) = n
    ∧ last (encoded ++ replicate (S padding) 0) = Some 0
    ∧ bytes_ok (encoded ++ replicate (S padding) 0) = true.
Proof.
  intros Hn Hcp Hs.
  exists (take (Z.to_nat (n - 1)) utf8),
         (Z.to_nat n - List.length (take (Z.to_nat (n - 1)) utf8) - 1)%nat.
  assert (List.length (take (Z.to_nat (n - 1)) utf8) ≤ Z.to_nat (n - 1))%nat
    as Hlen by (rewrite length_take; lia).
  rewrite (encode_string_positive s utf8 n) by done.
  split; [do 3 f_equal; lia|]. split; [done|].
  split; [rewrite length_app, length_replicate; lia|].
  split.
  - rewrite replicate_S_end, app_assoc. apply last_snoc.
  - rewrite bytes_ok_app, bytes_ok_replicate_zero, andb_true_r.
    apply bytes_ok_take. by eapply str_encode_utf8_bytes_ok.
Qed.





Lemma until_nul_encode_string (s utf8 encoded : list Z) (n : Z) :
  1 ≤ n → 0 ∉ s → str_encode_utf8 s = Some utf8 →
  encode_string s n = Some encoded →
  until_nul encoded = take (Z.to_nat (n - 1)) utf8
  ∧ (Z.of_nat (List.length utf8) < n → until_nul encoded = utf8).
Proof.
  intros Hn Hs Hutf8. rewrite (encode_string_positive s utf8 n) by done.
  intros [= <-].
  assert (List.length (take (Z.to_nat (n - 1)) utf8) ≤ Z.to_nat (n - 1))%nat
    as Hlen by (rewrite length_take; lia).
  assert (until_nul
            (take (Z.to_nat (n - 1)) utf8
             ++ replicate
                  (Z.to_nat n - List.length (take (Z.to_nat (n - 1)) utf8)) 0)
          = take (Z.to_nat (n - 1)) utf8) as Hread.
  { destruct (Z.to_nat n - List.length (take (Z.to_nat (n - 1)) utf8))%nat
      as [|k] eqn:Hk; [lia|].
    cbn [replicate]. apply until_nul_app_zero.
    intros Hin%(subseteq_take _ utf8).
    by apply (str_encode_utf8_nonzero s utf8). }
  split; [done|]. intros Hfits. rewrite Hread. apply take_ge. lia.
Qed.

(** X16. Reading the field back up to its first zero byte gives the first
    [length - 1] bytes of the UTF-8 text, for a text without the NUL
    character: the whole text when it is shorter than [length], and
    otherwise a cut that can fall inside a multi-byte character. *)
Theorem encode_string_read_back (s utf8 encoded : list Z) (n : Z) :
  1 ≤ n → 0 ∉ s → str_encode_utf8 s = Some utf8 →
  encode_string s n = Some encoded →
  until_nul encoded = take (Z.to_nat (n - 1)) utf8
  ∧ (Z.of_nat (List.length utf8) < n → until_nul encoded = utf8).
Proof. apply until_nul_encode_string. Qed.

Lemma encode_string_read_back_witness :
  until_nul [195; 169; 226; 0] = take (Z.to_nat (4 - 1)) [195; 169; 226; 130; 172].
Proof.
  refine (proj1 (encode_string_read_back [233; 0x20AC] [195; 169; 226; 130; 172]
                   [195; 169; 226; 0] 4 _ _ _ _)).
  - lia.
  - apply not_elem_of_cons. split; [discriminate|].
    apply not_elem_of_cons. split; [discriminate|apply not_elem_of_nil].
  - reflexivity.
  - reflexivity.
Defined.



(** * Properties of [create_workout_fit] *)

Lemma script_bind_inr {A B : Type} (m : script A) (k : A → script B) w a w' :
  m w = inr (a, w') → (m ≫= k) w = k a w'.
Proof. unfold mbind, script_bind. by intros ->. Qed.


Lemma method_define_ok w g fields :
  0 ≤ next_local_id w ≤ 255 → define_args_ok g fields = true →
  method (λ writer, define_message writer g fields) w
  = inr (next_local_id w,
         {| data := data w ++ definition_record (next_local_id w) g fields;
            local_message_types :=
              <[g := next_local_id w]> (local_message_types w);
            next_local_id := next_local_id w + 1 |}).
Proof. intros Hid Hargs. unfold method. by rewrite define_message_ok. Qed.

Lemma method_write_ok w g values id :
  local_message_types w !! g = Some id → 0 ≤ id ≤ 255 →
  forallb bytes_ok values = true →
  method (λ writer, write_data_message writer g values) w
  = inr ((),
         {| data := data w ++ data_record id values;
            local_message_types := local_message_types w;
            next_local_id := next_local_id w |}).
Proof.
  intros Hg Hid Hvalues. unfold method.
  by rewrite write_data_message_ok with (id := id).
Qed.

Lemma u32_ok_spec (x : Z) : u32_ok x = true ↔ 0 ≤ x ≤ 4294967295.
Proof. unfold u32_ok. rewrite andb_true_iff, !Z.leb_le. done. Qed.

Lemma packed_I_ok (x : Z) w :
  u32_ok x = true → packed (pack_I x) w = inr (le_bytes_4 x, w).
Proof.
  intros H%u32_ok_spec. unfold packed. by rewrite pack_I_ok.
Qed.


Lemma byte_ok_mask8 (x : Z) : byte_ok (Z.land x 255) = true.
Proof. apply byte_ok_spec. pose proof (mask8_in_range x). lia. Qed.

Lemma bytes_ok_le_bytes_2 (x : Z) : bytes_ok (le_bytes_2 x) = true.
Proof.
  unfold le_bytes_2. cbn [bytes_ok forallb]. by rewrite !byte_ok_mask8.
Qed.

Lemma bytes_ok_le_bytes_4 (x : Z) : bytes_ok (le_bytes_4 x) = true.
Proof.
  unfold le_bytes_4. cbn [bytes_ok forallb]. by rewrite !byte_ok_mask8.
Qed.

(** With arguments in range the script reaches [finalize] with the six
    records in the buffer. *)
Lemma create_workout_fit_reaches_finalize (workout_name name_field : list Z)
    (duration_seconds target_power_watts timestamp : Z) :
  u32_ok timestamp = true →
  encode_string workout_name 24 = Some name_field →
  bytes_ok name_field = true →
  u32_ok (duration_seconds * 1000) = true →
  u32_ok target_power_watts = true →
  create_workout_fit workout_name duration_seconds target_power_watts timestamp
  = match fst (finalize
                 {| data := workout_payload name_field duration_seconds
                              target_power_watts timestamp;
                    local_message_types :=
                      <[MESG_WORKOUT_STEP := 2]>
                        (<[MESG_WORKOUT := 1]> (<[MESG_FILE_ID := 0]> ∅));
                    next_local_id := 3 |}) with
    | Ok fit_data => inr fit_data
    | Raise e => inl (WriterError e)
    end.
Proof.
  intros Hts Hname Hname_ok Hduration Hpower.
  unfold create_workout_fit. cbv zeta.
  erewrite script_bind_inr by (by apply method_define_ok).
  do 4 (erewrite script_bind_inr by reflexivity).
  erewrite script_bind_inr by (by apply packed_I_ok).
  erewrite script_bind_inr.
  2:{ apply method_write_ok with (id := 0); [reflexivity|lia|].
      cbn [forallb].
      by rewrite !bytes_ok_le_bytes_4, !bytes_ok_le_bytes_2. }
  erewrite script_bind_inr by (unfold encoded; by rewrite Hname).
  erewrite script_bind_inr by (by apply method_define_ok).
  do 3 (erewrite script_bind_inr by reflexivity).
  erewrite script_bind_inr.
  2:{ apply method_write_ok with (id := 1); [reflexivity|lia|].
      cbn [forallb].
      by rewrite Hname_ok, !bytes_ok_le_bytes_4, !bytes_ok_le_bytes_2. }
  erewrite script_bind_inr by reflexivity.
  erewrite script_bind_inr by (by apply method_define_ok).
  do 2 (erewrite script_bind_inr by reflexivity).
  erewrite script_bind_inr by (by apply packed_I_ok).
  do 2 (erewrite script_bind_inr by reflexivity).
  do 2 (erewrite script_bind_inr by (by apply packed_I_ok)).
  erewrite script_bind_inr by reflexivity.
  erewrite script_bind_inr.
  2:{ apply method_write_ok with (id := 2); [reflexivity|lia|].
      cbn [forallb].
      by rewrite !bytes_ok_le_bytes_4, !bytes_ok_le_bytes_2. }
  unfold method. cbn [data local_message_types next_local_id FitWriter_init].
  unfold finalize at 1. cbn [fst snd].
  unfold workout_payload. rewrite <- !app_assoc. cbn [app].
  unfold finalize. cbn [fst data].
  by destruct (_ ≫= _).
Qed.


Lemma workout_payload_length (name_field : list Z)
    (duration_seconds target_power_watts timestamp : Z) :
  List.length name_field = 24%nat →
  List.length (workout_payload name_field duration_seconds
                 target_power_watts timestamp) = 156%nat.
Proof.
  intros Hname. unfold workout_payload.
  rewrite !length_app. unfold data_record at 2.
  rewrite length_cons, length_concat. cbn [map list_sum].
  rewrite Hname. reflexivity.
Qed.

Lemma create_workout_fit_ok (workout_name : list Z)
    (duration_seconds target_power_watts timestamp : Z) :
  forallb code_point_ok workout_name = true →
  existsb is_surrogate workout_name = false →
  u32_ok timestamp = true →
  u32_ok (duration_seconds * 1000) = true →
  u32_ok target_power_watts = true →
  ∃ name_field header trailer,
    encode_string workout_name 24 = Some name_field
    ∧ List.length name_field = 24%nat
    ∧ create_workout_fit workout_name duration_seconds target_power_watts
        timestamp
      = inr (header
             ++ workout_payload name_field duration_seconds
                  target_power_watts timestamp
             ++ trailer)
    ∧ List.length header = 14%nat ∧ List.length trailer = 2%nat
    ∧ List.length (header
                   ++ workout_payload name_field duration_seconds
                        target_power_watts timestamp
                   ++ trailer) = 172%nat
    ∧ read_u32_le (take 4 (drop 4 header)) = 156
    ∧ calculate_crc header 0 = 0
    ∧ calculate_crc (workout_payload name_field duration_seconds
                       target_power_watts timestamp ++ trailer) 0 = 0.
Proof.
  intros Hcp Hsur Hts Hduration Hpower.
  destruct (str_encode_utf8 workout_name) as [utf8|] eqn:Hutf8.
  2:{ apply str_encode_utf8_None in Hutf8. congruence. }
  destruct (encode_string_width workout_name utf8 24)
    as (enc & padding & Hname & _ & Hlen & _ & Hok); [lia|done|done|].
  set (name_field := enc ++ replicate (S padding) 0) in *.
  clearbody name_field.
  assert (List.length name_field = 24%nat) as Hlen24 by lia.
  pose proof (workout_payload_length name_field duration_seconds
                target_power_watts timestamp Hlen24) as Hpayload.
  destruct (finalize_file_layout
              {| data := workout_payload name_field duration_seconds
                           target_power_watts timestamp;
                 local_message_types :=
                   <[MESG_WORKOUT_STEP := 2]>
                     (<[MESG_WORKOUT := 1]> (<[MESG_FILE_ID := 0]> ∅));
                 next_local_id := 3 |})
    as (header & trailer & Hfile & Hh & Ht & Htotal & _ & Hsize & _ & Hc1 & Hc2).
  { cbn [data]. rewrite Hpayload. lia. }
  cbn [data] in *. exists name_field, header, trailer.
  rewrite (create_workout_fit_reaches_finalize workout_name name_field)
    by done.
  rewrite Hfile. rewrite Hpayload in Htotal, Hsize.
  repeat split; done.
Qed.

(** X18. For arguments in range (a clock value and a target power that
    fit 32 bits, a duration whose milliseconds fit 32 bits, a workout name
    without surrogates), [create_workout_fit] produces a file of exactly
    172 bytes, whatever the name and the numbers: the 14-byte header with
    size field 156, then three definition records with stream ids 0, 1
    and 2, each followed by its data record, with the name as a 24-byte
    field, then the 2-byte checksum; both checksums verify. *)
Theorem create_workout_fit_file (workout_name : list Z)
    (duration_seconds target_power_watts timestamp : Z) :
  forallb code_point_ok workout_name = true →
  existsb is_surrogate workout_name = false →
  u32_ok timestamp = true →
  u32_ok (duration_seconds * 1000) = true →
  u32_ok target_power_watts = true →
  ∃ name_field header trailer,
    encode_string workout_name 24 = Some name_field
    ∧ List.length name_field = 24%nat
    ∧ create_workout_fit workout_name duration_seconds target_power_watts
        timestamp
      = inr (header
             ++ workout_payload name_field duration_seconds
                  target_power_watts timestamp
             ++ trailer)
    ∧ List.length header = 14%nat ∧ List.length trailer = 2%nat
    ∧ List.length (header
                   ++ workout_payload name_field duration_seconds
                        target_power_watts timestamp
                   ++ trailer) = 172%nat
    ∧ read_u32_le (take 4 (drop 4 header)) = 156
    ∧ calculate_crc header 0 = 0
    ∧ calculate_crc (workout_payload name_field duration_seconds
                       target_power_watts timestamp ++ trailer) 0 = 0.
Proof. apply create_workout_fit_ok. Qed.

Lemma create_workout_fit_file_witness :
  ∃ name_field header trailer,
    create_workout_fit [49; 104; 32; 49; 53; 48; 87] 3600 150 1162000000
    = inr (header ++ workout_payload name_field 3600 150 1162000000 ++ trailer)
    ∧ List.length (header ++ workout_payload name_field 3600 150 1162000000
                   ++ trailer) = 172%nat.
Proof.
  destruct (create_workout_fit_file [49; 104; 32; 49; 53; 48; 87] 3600 150
              1162000000 eq_refl eq_refl eq_refl eq_refl eq_refl)
    as (name_field & header & trailer & _ & _ & H1 & _ & _ & H2 & _).
  exists name_field, header, trailer. split; [exact H1|exact H2].
Defined.




(** * Reading back what the writer wrote *)

Lemma field_triples_cons (f : Z * Z * Z) (fields : list (Z * Z * Z)) :
  field_triples (f :: fields)
  = f.1.1 :: f.1.2 :: f.2 :: field_triples fields.
Proof. by destruct f as [[a b] c]. Qed.

Lemma read_field_defs_triples (fields : list (Z * Z * Z)) (rest : list Z) :
  read_field_defs (List.length fields) (field_triples fields ++ rest)
  = Some (fields, rest).
Proof.
  induction fields as [|[[a b] c] fields IH]; [done|].
  rewrite field_triples_cons. cbn [List.length app read_field_defs fst snd].
  by rewrite IH.
Qed.

Lemma read_values_concat (fields : list (Z * Z * Z)) (values : list (list Z))
    (rest : list Z) :
  widths_match fields values = true →
  read_values fields (concat values ++ rest) = Some (values, rest).
Proof.
  revert values. induction fields as [|[[a w] t] fields IH];
    intros [|v values] Hmatch; try done.
  cbn [widths_match] in Hmatch.
  apply andb_true_iff in Hmatch as [Hw%Z.eqb_eq Hmatch].
  cbn [read_values concat]. rewrite <- app_assoc, <- Hw.
  rewrite (proj2 (Z.ltb_ge _ _)) by (rewrite length_app; lia).
  rewrite Nat2Z.id, drop_app_length, take_app_length.
  by rewrite IH.
Qed.

Lemma read_records_definition (fuel : nat) (defs : gmap Z (list (Z * Z * Z)))
    (id g : Z) (fields : list (Z * Z * Z)) (rest : list Z) :
  0 ≤ id ≤ 15 → define_args_ok g fields = true →
  read_records (S fuel) defs (definition_record id g fields ++ rest)
  = match read_records fuel (<[id := fields]> defs) rest with
    | Some records => Some (DefinitionRecord id g fields :: records)
    | None => None
    end.
Proof.
  intros Hid (Hg & _ & _)%define_args_ok_spec.
  destruct (definition_header_bits id Hid) as (_ & Hbit6 & _ & _ & Hlow).
  unfold definition_record, definition_body.
  cbn [app read_records]. rewrite Hbit6, Hlow, Nat2Z.id.
  rewrite read_field_defs_triples.
  assert (g `mod` 256 + 256 * (g `div` 256) = g) as ->
    by (Z.div_mod_to_equations; lia).
  reflexivity.
Qed.

Lemma read_records_data (fuel : nat) (defs : gmap Z (list (Z * Z * Z)))
    (id : Z) (fields : list (Z * Z * Z)) (values : list (list Z))
    (rest : list Z) :
  0 ≤ id ≤ 15 → defs !! id = Some fields →
  widths_match fields values = true →
  read_records (S fuel) defs (data_record id values ++ rest)
  = match read_records fuel defs rest with
    | Some records => Some (DataRecord id values :: records)
    | None => None
    end.
Proof.
  intros Hid Hdefs Hmatch.
  destruct (data_header_bits id Hid) as (_ & Hbit6 & _ & _ & Hlow).
  unfold data_record. cbn [app read_records].
  by rewrite Hbit6, Hlow, Hdefs, read_values_concat.
Qed.

Lemma read_records_session (cs : list call) :
  ∀ self schemas defs records fuel emitted,
    records_of self schemas cs = Some records →
    reader_agrees self schemas defs →
    data (snd (run self cs)) = data self ++ emitted →
    (List.length emitted < fuel)%nat →
    read_records fuel defs emitted = Some records.
Proof.
  induction cs as [|c cs IH];
    intros self schemas defs records fuel emitted Hrec Hagree Hdata Hfuel.
  - cbn in Hdata. rewrite <- (app_nil_r (data self)) in Hdata at 1.
    apply app_inv_head in Hdata as <-. injection Hrec as <-.
    destruct fuel; [simpl in Hfuel; lia|done].
  - rewrite run_cons in Hdata. cbn [snd] in Hdata.
    destruct (run_data_prefix cs (snd (step self c))) as [tail Htail].
    rewrite Htail in Hdata.
    destruct c as [g fields|g values|]; cbn [records_of] in Hrec.
    + destruct (define_args_ok g fields && (0 <=? next_local_id self)
                && (next_local_id self <=? 15)) eqn:Hok; [|done].
      apply andb_true_iff in Hok as [Hok Hhi%Z.leb_le].
      apply andb_true_iff in Hok as [Hargs Hlo%Z.leb_le].
      destruct (records_of _ _ cs) as [records'|] eqn:Hrec'; [|done].
      injection Hrec as <-.
      cbn [step] in *. rewrite define_message_ok in * by (done || lia).
      cbn [snd data] in *. rewrite <- app_assoc in Hdata.
      apply app_inv_head in Hdata as <-.
      rewrite length_app in Hfuel.
      destruct fuel as [|fuel]; [lia|].
      change (Z.lor 0x40 (next_local_id self) :: definition_body g fields)
        with (definition_record (next_local_id self) g fields).
      rewrite read_records_definition by (done || lia).
      erewrite IH; [done|exact Hrec'| |exact Htail|].
      * intros g' id'. cbn [local_message_types next_local_id].
        intros [[-> <-]|[Hne Hg']]%lookup_insert_Some.
        -- split; [lia|]. split; [lia|]. exists fields.
           by rewrite !lookup_insert_eq.
        -- destruct (Hagree g' id' Hg') as (Hid' & Hbelow & fs & Hs & Hd).
           split; [done|]. split; [lia|]. exists fs.
           rewrite !lookup_insert_ne by (done || lia). done.
      * unfold definition_record in Hfuel. cbn [List.length] in Hfuel. lia.
    + destruct (local_message_types self !! g) as [id|] eqn:Hg; [|done].
      destruct (schemas !! g) as [fields|] eqn:Hschema; [|done].
      destruct (forallb bytes_ok values && widths_match fields values)
        eqn:Hok; [|done].
      apply andb_true_iff in Hok as [Hbytes Hmatch].
      destruct (records_of _ _ cs) as [records'|] eqn:Hrec'; [|done].
      injection Hrec as <-.
      destruct (Hagree g id Hg) as (Hid & Hbelow & fs & Hs & Hd).
      assert (fs = fields) as -> by congruence.
      cbn [step] in *.
      rewrite write_data_message_ok with (id := id) in * by (done || lia).
      cbn [snd data] in *. rewrite <- app_assoc in Hdata.
      apply app_inv_head in Hdata as <-.
      rewrite length_app in Hfuel.
      destruct fuel as [|fuel]; [lia|].
      change (id :: concat values) with (data_record id values).
      rewrite (read_records_data fuel defs id fields) by done.
      erewrite IH; [done|exact Hrec'|exact Hagree|exact Htail|].
      unfold data_record in Hfuel. cbn [List.length] in Hfuel. lia.
    + cbn [step finalize snd] in *.
      apply app_inv_head in Hdata as <-.
      eapply IH; [exact Hrec|exact Hagree|exact Htail|done].
Qed.

(** X20. Reading back the payload of a session gives exactly the records
    written, in order, with every field value as it was supplied, provided
    the session stays within what a record header can express: at most 16
    definitions, each with arguments [struct.pack] accepts, and data
    messages whose values are byte sequences with the widths that the
    latest definition of their message type declares. *)
Theorem payload_reads_back (cs : list call) (records : list fit_record) :
  records_of FitWriter_init ∅ cs = Some records →
  read_payload (data (session_state cs)) = Some records.
Proof.
  intros Hrec. unfold read_payload.
  eapply (read_records_session cs FitWriter_init ∅ ∅); [exact Hrec| |done|lia].
  intros g id Hg. cbn in Hg. by rewrite lookup_empty in Hg.
Qed.

Lemma payload_reads_back_witness :
  read_payload
    (data (session_state
             [DefineMessage 0 [(0, 1, 0x00); (1, 2, 0x84)];
              WriteDataMessage 0 [[5]; [1; 0]];
              Finalize;
              DefineMessage 0 [(3, 4, 0x86)];
              WriteDataMessage 0 [[1; 2; 3; 4]]]))
  = Some [DefinitionRecord 0 0 [(0, 1, 0x00); (1, 2, 0x84)];
          DataRecord 0 [[5]; [1; 0]];
          DefinitionRecord 1 0 [(3, 4, 0x86)];
          DataRecord 1 [[1; 2; 3; 4]]].
Proof.
  apply (payload_reads_back
           [DefineMessage 0 [(0, 1, 0x00); (1, 2, 0x84)];
            WriteDataMessage 0 [[5]; [1; 0]];
            Finalize;
            DefineMessage 0 [(3, 4, 0x86)];
            WriteDataMessage 0 [[1; 2; 3; 4]]]).
  reflexivity.
Defined.




(** ** Stream ids above 15 *)

Lemma land_lor_0x40_low4 (id : Z) : Z.land (Z.lor 0x40 id) 0xF = id `mod` 16.
Proof.
  rewrite Z.land_lor_distr_l. change (Z.land 0x40 0xF) with 0.
  rewrite Z.lor_0_l. apply land_ones_4.
Qed.

(** X22. Only the low four bits of a stream id reach the low four bits
    of a record header: for every stream id up to 255 the header of the
    definition record and the header of the data record both carry the id
    modulo 16 there, so from the seventeenth definition on a stream shares
    its header bits with the stream 16 below it; and from stream id 64 on
    the header of a data record has bit 6 set, the mark of a definition
    record. *)
Theorem stream_id_wraps self g :
  (∀ fields,
     0 ≤ next_local_id self ≤ 255 → define_args_ok g fields = true →
     ∃ header body,
       data (snd (define_message self g fields)) = data self ++ header :: body
       ∧ Z.land header 0xF = next_local_id self `mod` 16)
  ∧ (∀ values id,
       local_message_types self !! g = Some id → 0 ≤ id ≤ 255 →
       ∃ header rest,
         data (snd (write_data_message self g values))
         = data self ++ header :: rest
         ∧ Z.land header 0xF = id `mod` 16
         ∧ (Z.testbit header 6 = true ↔ 64 ≤ id ≤ 127 ∨ 192 ≤ id)).
Proof.
  split.
  - intros fields Hid Hargs. rewrite define_message_ok by done.
    eexists _, _. split; [reflexivity|]. apply land_lor_0x40_low4.
  - intros values id Hg Hid.
    destruct (write_data_message_header self g values id Hg Hid) as [rest Hrest].
    exists id, rest. split; [done|]. split; [apply land_ones_4|].
    rewrite Z.testbit_true by lia. change (2 ^ 6) with 64.
    split; [intros H|intros H]; Z.div_mod_to_equations; lia.
Qed.

Lemma stream_id_wraps_witness :
  ∃ header body,
    data (snd (define_message (session_state sixteen_definitions) 16
                 [(0, 1, 0x00)]))
    = data (session_state sixteen_definitions) ++ header :: body
    ∧ Z.land header 0xF = 16 `mod` 16.
Proof.
  destruct (stream_id_wraps (session_state sixteen_definitions) 16)
    as [Hdef _].
  destruct (Hdef [(0, 1, 0x00)]) as (header & body & H1 & H2).
  - by vm_compute.
  - reflexivity.
  - exists header, body. split; [exact H1|exact H2].
Defined.

(** * [main] *)


